(** * ms: duration strings to milliseconds and back

    A shallow embedding of the TypeScript module (the cached [parse],
    [format], [fmtShort], [fmtLong], [plural], the [LRUCache] class and the
    two lookup tables) together with the part of the JavaScript runtime the
    module calls: binary64 numbers, [parseFloat], [Math.round], number
    printing, [Map], property reads on an object literal, [JSON.stringify]
    on strings and the regular-expression matcher.

    Conventions.
    - A JavaScript string is a [string]; every [ascii] stands for one UTF-16
      code unit in the range 0..255, so [String.length] is [str.length].
    - A JavaScript number is a [spec_float] at precision 53 and maximal
      exponent 1024 (IEEE 754 binary64), with the operations of
      [SpecFloat], which compute in [Z].
    - A property read [o[key]] on an object literal looks at the own
      properties and then at [Object.prototype]; [undefined] is [None].
    - A regular expression is a term of [regex]; [run] lists the matches in
      the order a backtracking matcher finds them.
    - The module-level [parseCache] is threaded explicitly: [parse] takes
      the cache and returns the completion together with the new cache;
      [reachable] collects the caches that calls of [parse] lead to.

    The definitions come first: runtime, module, then the notions the
    statements are written with. The theorems follow: [Map] and
    [LRUCache], the matcher and the readings of [parseRegex], [parse] and
    its cache, the tables, and the properties of [parse] and [format]. *)

From Stdlib Require Import ZArith List String Ascii Bool Lia SpecFloat DecimalString.
Import ListNotations.

Open Scope string_scope.
Open Scope Z_scope.

(* ================================================================= *)
(** ** Numbers *)

Definition prec : Z := 53.
Definition emax : Z := 1024.

Definition number : Type := spec_float.

Definition NaN : number := S754_nan.

(** The number nearest to the rational [n / d] (ties to even), signed by
    [neg]. The quotient is taken with enough bits for the rounding to see
    the exact position of [n / d] between two neighbours. *)
Definition number_of_ratio (neg : bool) (n d : Z) : number :=
  match n, d with
  | Zpos _, Zpos _ =>
      let '(mz, ez, lz) := SFdiv_core_binary prec emax n 0 d 0 in
      binary_round_aux prec emax neg mz ez lz
  | Z0, Zpos _ => S754_zero neg
  | _, _ => NaN
  end.

(** The number written as the integer literal [z]. *)
Definition number_of_Z (z : Z) : number := binary_normalize prec emax z 0 false.

(** The number [mant * 10 ^ e10], correctly rounded. *)
Definition number_of_decimal (neg : bool) (mant e10 : Z) : number :=
  if 0 <=? e10 then number_of_ratio neg (mant * 10 ^ e10) 1
  else number_of_ratio neg mant (10 ^ (- e10)).

Definition number_mul (x y : number) : number := SFmul prec emax x y.
Definition number_div (x y : number) : number := SFdiv prec emax x y.

(** [x >= y] *)
Definition number_ge (x y : number) : bool := SFleb y x.

Definition Number_isFinite (x : number) : bool :=
  match x with
  | S754_zero _ | S754_finite _ _ _ => true
  | S754_infinity _ | S754_nan => false
  end.

Definition Math_abs (x : number) : number := SFabs x.

(** [Math.round]: the nearest integer, halves going up; a result of zero
    keeps the sign of the argument. *)
Definition Math_round (x : number) : number :=
  match x with
  | S754_finite sx mx ex =>
      if 0 <=? ex then x
      else
        let v := cond_Zopp sx (Zpos mx) in
        binary_normalize prec emax ((2 * v + 2 ^ (- ex)) / 2 ^ (1 - ex)) 0 sx
  | _ => x
  end.

(* ================================================================= *)
(** ** Strings *)

Definition code (a : ascii) : Z := Z.of_nat (nat_of_ascii a).

Definition chr (z : Z) : ascii := ascii_of_nat (Z.to_nat z).

Definition dquote : string := String (chr 34) "".

Definition isDigit (a : ascii) : bool := (48 <=? code a) && (code a <=? 57).

(** Length as a number of code units, in [Z]. *)
Definition strlen (str : string) : Z := Z.of_nat (String.length str).

(** Longest prefix whose characters satisfy [p], and the rest. *)
Fixpoint span (p : ascii -> bool) (str : string) : string * string :=
  match str with
  | String a r =>
      if p a then let '(x, rest) := span p r in (String a x, rest)
      else ("", str)
  | "" => ("", "")
  end.

Fixpoint string_map (f : ascii -> ascii) (str : string) : string :=
  match str with
  | String a r => String (f a) (string_map f r)
  | "" => ""
  end.

(** Simple case mappings on the code units 0..255. [U+00B5] and [U+00FF]
    have upper-case forms outside this range and [U+00DF] has a
    two-letter one: they are left in place. *)
Definition lowerChar (a : ascii) : ascii :=
  let c := code a in
  if ((65 <=? c) && (c <=? 90))
     || ((192 <=? c) && (c <=? 222) && negb (c =? 215))
  then chr (c + 32) else a.

Definition upperChar (a : ascii) : ascii :=
  let c := code a in
  if ((97 <=? c) && (c <=? 122))
     || ((224 <=? c) && (c <=? 254) && negb (c =? 247))
  then chr (c - 32) else a.

(** [String.prototype.toLowerCase] *)
Definition toLowerCase (str : string) : string := string_map lowerChar str.

(** Decimal digits of a non-negative integer. *)
Definition digits_of_Z (z : Z) : string :=
  NilZero.string_of_uint (N.to_uint (Z.to_N z)).

(** Value of a string of decimal digits, most significant first. *)
Fixpoint Z_of_digits_acc (acc : Z) (str : string) : Z :=
  match str with
  | String a r => Z_of_digits_acc (10 * acc + (code a - 48)) r
  | "" => acc
  end.

Definition Z_of_digits (str : string) : Z := Z_of_digits_acc 0 str.

Fixpoint zeros (k : nat) : string :=
  match k with
  | O => ""
  | S k' => String "0" (zeros k')
  end.

(** [substring] with the string library's argument order hidden. *)
Definition take (k : nat) (str : string) : string := substring 0 k str.
Definition drop (k : nat) (str : string) : string :=
  substring k (String.length str - k) str.

(** White space of [parseFloat]'s trimming among the code units 0..255:
    TAB, LF, VT, FF, CR, SP and NBSP. *)
Definition isWhiteSpace (a : ascii) : bool :=
  let c := code a in
  ((9 <=? c) && (c <=? 13)) || (c =? 32) || (c =? 160).

(** An optional sign in front of a literal: the flag is [true] for [-]. *)
Definition splitSign (str : string) : bool * string :=
  match str with
  | String "-" r => (true, r)
  | String "+" r => (false, r)
  | _ => (false, str)
  end.

(** Value of an exponent part [e|E] [+|-]? digits+ at the head of [str],
    or 0 when there is none. *)
Definition exponentPart (str : string) : Z :=
  match str with
  | String a r =>
      if (code a =? 101) || (code a =? 69) then
        let '(neg, r1) := splitSign r in
        let '(ds, _) := span isDigit r1 in
        match ds with
        | "" => 0
        | _ => cond_Zopp neg (Z_of_digits ds)
        end
      else 0
  | "" => 0
  end.

(** [parseFloat]: the value of the longest prefix of the trimmed string
    that is a decimal literal, [NaN] when there is none. *)
Definition parseFloat (str : string) : number :=
  let '(_, t) := span isWhiteSpace str in
  let '(neg, u) := splitSign t in
  if prefix "Infinity" u then S754_infinity neg
  else
    let '(ip, r1) := span isDigit u in
    let '(fp, r2) :=
      match r1 with
      | String "." r => span isDigit r
      | _ => ("", r1)
      end in
    match ip ++ fp with
    | "" => NaN
    | ds => number_of_decimal neg (Z_of_digits ds) (exponentPart r2 - strlen fp)
    end.

(** *** Printing a number ([Number::toString], radix 10) *)

(** The [n] with [10^(n-1) <= p/q < 10^n], for positive [p] and [q]. *)
Definition decimal_exponent (p q : Z) : Z :=
  let e := strlen (digits_of_Z p) - strlen (digits_of_Z q) in
  if (if 0 <=? e then p <? q * 10 ^ e else p * 10 ^ (- e) <? q)
  then e else e + 1.

(** The fraction [p/q * 10^e]. *)
Definition scale10 (p q e : Z) : Z * Z :=
  if 0 <=? e then (p * 10 ^ e, q) else (p, q * 10 ^ (- e)).

(** Whether the decimal [s * 10^(n-k)] reads back as [x]. *)
Definition reads_back (x : number) (s n k : Z) : bool :=
  SFeqb (number_of_decimal false s (n - k)) x.

(** The shortest digit string [s] (of [k] digits, [k] as small as possible)
    with [s * 10^(n-k)] reading back as [x = p/q]; among two candidates of
    the same length the one nearer to [x], the even one on a tie. The
    search starts at [k] digits and stops by 17 digits at the latest. *)
Fixpoint shortest_digits (fuel : nat) (k : Z) (x : number) (p q n : Z)
  : Z * Z * Z :=
  let '(P, Q) := scale10 p q (k - n) in
  let lo := P / Q in
  let hi := lo + 1 in
  let pick :=
    match reads_back x lo n k, reads_back x hi n k with
    | true, true =>
        match 2 * P ?= (2 * lo + 1) * Q with
        | Lt => Some lo
        | Gt => Some hi
        | Eq => Some (if Z.even lo then lo else hi)
        end
    | true, false => Some lo
    | false, true => Some hi
    | false, false => None
    end in
  match pick with
  | Some s => if s =? 10 ^ k then (10 ^ (k - 1), n + 1, k) else (s, n, k)
  | None =>
      match fuel with
      | O => (lo, n, k)
      | S fuel' => shortest_digits fuel' (k + 1) x p q n
      end
  end.

Definition Number_toString (x : number) : string :=
  match x with
  | S754_nan => "NaN"
  | S754_zero _ => "0"
  | S754_infinity sx => (if sx then "-" else "") ++ "Infinity"
  | S754_finite sx mx ex =>
      let '(p, q) :=
        if 0 <=? ex then (Zpos mx * 2 ^ ex, 1) else (Zpos mx, 2 ^ (- ex)) in
      let '(s, n, k) :=
        shortest_digits 20 1 (S754_finite false mx ex) p q
                        (decimal_exponent p q) in
      let ds := digits_of_Z s in
      let kk := Z.to_nat k in
      let nn := Z.to_nat n in
      (if sx then "-" else "") ++
      (if (k <=? n) && (n <=? 21) then ds ++ zeros (nn - kk)
       else if (0 <? n) && (n <=? 21) then take nn ds ++ "." ++ drop nn ds
       else if (-6 <? n) && (n <=? 0) then "0." ++ zeros (Z.to_nat (- n)) ++ ds
       else
         let e := (if 0 <=? n - 1 then "+" else "-")
                  ++ digits_of_Z (Z.abs (n - 1)) in
         if k =? 1 then ds ++ "e" ++ e
         else take 1 ds ++ "." ++ drop 1 ds ++ "e" ++ e)
  end.

(** *** [JSON.stringify] on a string *)

Definition hexDigit (z : Z) : string :=
  match get (Z.to_nat z) "0123456789abcdef" with
  | Some a => String a ""
  | None => ""
  end.

Definition quoteChar (a : ascii) : string :=
  let c := code a in
  if c =? 8 then "\b"
  else if c =? 9 then "\t"
  else if c =? 10 then "\n"
  else if c =? 12 then "\f"
  else if c =? 13 then "\r"
  else if c =? 34 then "\" ++ dquote
  else if c =? 92 then "\\"
  else if c <? 32 then "\u00" ++ hexDigit (c / 16) ++ hexDigit (c mod 16)
  else String a "".

Fixpoint quoteChars (str : string) : string :=
  match str with
  | String a r => quoteChar a ++ quoteChars r
  | "" => ""
  end.

Definition JSON_stringify (str : string) : string :=
  dquote ++ quoteChars str ++ dquote.

(* ================================================================= *)
(** ** Values, completions, objects and [Map] *)

(** What a property read or a call of this module can yield at run time: a
    number, or one of the built-in objects that every object literal
    inherits from [Object.prototype], named by the property that reaches
    it. [undefined] is the [None] of an [option JSValue]. *)
Inductive JSValue : Type :=
| VNumber (x : number)
| VBuiltin (key : string).

(** [ToNumber]: a built-in function or object converts to [NaN]. *)
Definition ToNumber (v : JSValue) : number :=
  match v with
  | VNumber x => x
  | VBuiltin _ => NaN
  end.

Inductive error : Type :=
| Error (message : string).

Inductive completion (A : Type) : Type :=
| Return (a : A)
| Throw (e : error).

Arguments Return {A} a.
Arguments Throw {A} e.

(** Properties of [Object.prototype]. *)
Definition Object_prototype_keys : list string :=
  [ "constructor"; "hasOwnProperty"; "isPrototypeOf";
    "propertyIsEnumerable"; "toLocaleString"; "toString"; "valueOf";
    "__proto__"; "__defineGetter__"; "__defineSetter__";
    "__lookupGetter__"; "__lookupSetter__" ].

(** An object literal with number-valued own properties. *)
Definition object : Type := list (string * number).

Fixpoint own_property (o : object) (key : string) : option number :=
  match o with
  | (k, x) :: o' => if String.eqb k key then Some x else own_property o' key
  | [] => None
  end.

Definition inherited (key : string) : bool :=
  existsb (String.eqb key) Object_prototype_keys.

(** [o[key]]: the own property when there is one, else the property of
    that name on the prototype, else [undefined]. *)
Definition Object_get (o : object) (key : string) : option JSValue :=
  match own_property o key with
  | Some x => Some (VNumber x)
  | None => if inherited key then Some (VBuiltin key) else None
  end.

(** [Map<string, V>]: the entries in insertion order. *)
Section MapModel.
Variable V : Type.

Definition Map : Type := list (string * V).

Fixpoint Map_get (key : string) (mp : Map) : option V :=
  match mp with
  | (k, v) :: mp' => if String.eqb k key then Some v else Map_get key mp'
  | [] => None
  end.

Fixpoint Map_has (key : string) (mp : Map) : bool :=
  match mp with
  | (k, _) :: mp' => String.eqb k key || Map_has key mp'
  | [] => false
  end.

Fixpoint Map_delete (key : string) (mp : Map) : Map :=
  match mp with
  | (k, v) :: mp' =>
      if String.eqb k key then mp' else (k, v) :: Map_delete key mp'
  | [] => []
  end.

(** An existing key keeps its place; a new key goes to the end. *)
Fixpoint Map_set (key : string) (v : V) (mp : Map) : Map :=
  match mp with
  | (k, v') :: mp' =>
      if String.eqb k key then (k, v) :: mp'
      else (k, v') :: Map_set key v mp'
  | [] => [(key, v)]
  end.

Definition Map_size (mp : Map) : nat := List.length mp.

(** [mp.keys().next().value] *)
Definition Map_first_key (mp : Map) : option string :=
  match mp with
  | (k, _) :: _ => Some k
  | [] => None
  end.

Definition Map_keys (mp : Map) : list string := map fst mp.
End MapModel.

Arguments Map_get {V} key mp.
Arguments Map_has {V} key mp.
Arguments Map_delete {V} key mp.
Arguments Map_set {V} key v mp.
Arguments Map_size {V} mp.
Arguments Map_first_key {V} mp.
Arguments Map_keys {V} mp.

(* ================================================================= *)
(** ** Regular expressions *)

(** The pattern language [parseRegex] is written in. *)
Inductive atom : Type :=
| Lit (a : ascii)       (* a pattern character *)
| Digit.                (* \d *)

Inductive regex : Type :=
| Atom (c : atom)
| Star (c : atom)                      (* c*, greedy *)
| Plus (c : atom)                      (* c+, greedy *)
| Opt (r : regex)                      (* r?, greedy *)
| Seq (r1 r2 : regex)
| Alt (r1 r2 : regex)                  (* r1|r2, left first *)
| Group (name : string) (r : regex)    (* (?<name>r) *)
| Bol                                  (* ^ *)
| Eol                                  (* $ *)
| Eps.                                 (* the empty pattern *)

(** The matcher's state: position in the input, named groups captured so
    far, input still to read. *)
Record mstate : Type := {
  index : nat;
  captures : list (string * string);
  rest : string
}.

(** Under the [i] flag two characters match when their upper-case forms
    agree. *)
Definition atom_matches (c : atom) (a : ascii) : bool :=
  match c with
  | Lit b => Ascii.eqb (upperChar a) (upperChar b)
  | Digit => isDigit a
  end.

Definition step_atom (c : atom) (st : mstate) : list mstate :=
  match rest st with
  | String a r =>
      if atom_matches c a
      then [ {| index := S (index st); captures := captures st; rest := r |} ]
      else []
  | "" => []
  end.

(** All ways for [c*] to match at the head of [str], longest first. *)
Fixpoint star_atom (c : atom) (idx : nat) (caps : list (string * string))
         (str : string) : list mstate :=
  match str with
  | String a r =>
      (if atom_matches c a then star_atom c (S idx) caps r else [])
      ++ [ {| index := idx; captures := caps; rest := str |} ]
  | "" => [ {| index := idx; captures := caps; rest := "" |} ]
  end.

Definition set_capture (name text : string) (caps : list (string * string))
  : list (string * string) :=
  (name, text) :: Map_delete name caps.

(** The ways for [r] to match at [st], in the order a backtracking matcher
    tries them: its first success is the head of the list. *)
Fixpoint run (r : regex) (st : mstate) : list mstate :=
  match r with
  | Atom c => step_atom c st
  | Star c => star_atom c (index st) (captures st) (rest st)
  | Plus c =>
      flat_map (fun st' => star_atom c (index st') (captures st') (rest st'))
               (step_atom c st)
  | Opt r1 => run r1 st ++ [st]
  | Seq r1 r2 => flat_map (run r2) (run r1 st)
  | Alt r1 r2 => run r1 st ++ run r2 st
  | Group name r1 =>
      map (fun st' =>
             {| index := index st';
                captures :=
                  set_capture name (take (index st' - index st) (rest st))
                              (captures st');
                rest := rest st' |})
          (run r1 st)
  | Bol => if Nat.eqb (index st) 0 then [st] else []
  | Eol => match rest st with "" => [st] | _ => [] end
  | Eps => [st]
  end.

(** [re.exec(str)] for a pattern without the [g] and [y] flags: the first
    match at the leftmost position that has one; [None] is [null]. The
    result is the [groups] object of the match. *)
Fixpoint exec_from (r : regex) (idx : nat) (str : string)
  : option (list (string * string)) :=
  match run r {| index := idx; captures := []; rest := str |} with
  | st :: _ => Some (captures st)
  | [] =>
      match str with
      | String _ str' => exec_from r (S idx) str'
      | "" => None
      end
  end.

Definition RegExp_exec (r : regex) (str : string)
  : option (list (string * string)) :=
  exec_from r 0 str.

(** Pattern text: the characters of [w] in sequence. *)
Fixpoint word (w : string) : regex :=
  match w with
  | String a "" => Atom (Lit a)
  | String a r => Seq (Atom (Lit a)) (word r)
  | "" => Eps
  end.

Declare Scope regex_scope.
Delimit Scope regex_scope with re.
Infix ";;" := Seq (at level 41, right associativity) : regex_scope.
Infix "|||" := Alt (at level 50, left associativity) : regex_scope.

(* ================================================================= *)
(** ** The module *)

Definition s : number := number_of_Z 1000.
Definition m : number := number_mul s (number_of_Z 60).
Definition h : number := number_mul m (number_of_Z 60).
Definition d : number := number_mul h (number_of_Z 24).
Definition w : number := number_mul d (number_of_Z 7).
Definition y : number := number_mul d (number_of_decimal false 36525 (-2)).
Definition mo : number := number_div y (number_of_Z 12).

(** The spellings of each unit, as the type aliases list them. *)
Definition Years : list string := ["years"; "year"; "yrs"; "yr"; "y"].
Definition Months : list string := ["months"; "month"; "mo"].
Definition Weeks : list string := ["weeks"; "week"; "w"].
Definition Days : list string := ["days"; "day"; "d"].
Definition Hours : list string := ["hours"; "hour"; "hrs"; "hr"; "h"].
Definition Minutes : list string := ["minutes"; "minute"; "mins"; "min"; "m"].
Definition Seconds : list string := ["seconds"; "second"; "secs"; "sec"; "s"].
Definition Milliseconds : list string :=
  ["milliseconds"; "millisecond"; "msecs"; "msec"; "ms"].

Definition Unit : list (list string) :=
  [Years; Months; Weeks; Days; Hours; Minutes; Seconds; Milliseconds].

(** [w] followed by an optional [s], as in [hours?]. *)
Definition word_s (w : string) : regex := (word w ;; Opt (Atom (Lit "s")))%re.

Definition value_pattern : regex :=
  (Opt (Atom (Lit "-")) ;; Star Digit ;; Opt (Atom (Lit ".")) ;; Plus Digit)%re.

Definition unit_pattern : regex :=
  (word_s "millisecond" ||| word_s "msec" ||| word "ms"
   ||| word_s "second" ||| word_s "sec" ||| word "s"
   ||| word_s "minute" ||| word_s "min" ||| word "m"
   ||| word_s "hour" ||| word_s "hr" ||| word "h"
   ||| word_s "day" ||| word "d"
   ||| word_s "week" ||| word "w"
   ||| word_s "month" ||| word "mo"
   ||| word_s "year" ||| word_s "yr" ||| word "y")%re.

(** [/^(?<value>-?\d*\.?\d+) *(?<unit>...)?$/i] *)
Definition parseRegex : regex :=
  (Bol ;; Group "value" value_pattern ;; Star (Lit " ")
   ;; Opt (Group "unit" unit_pattern) ;; Eol)%re.

(** *** The LRU cache *)

Record LRUCache : Type := {
  cache : Map JSValue;
  maxSize : nat
}.

Definition new_LRUCache (maxSize : nat) : LRUCache :=
  {| cache := []; maxSize := maxSize |}.

Definition with_cache (c : LRUCache) (mp : Map JSValue) : LRUCache :=
  {| cache := mp; maxSize := maxSize c |}.

(** [get]: a hit moves the entry to the end (most recently used). *)
Definition LRUCache_get (key : string) (c : LRUCache)
  : option JSValue * LRUCache :=
  match Map_get key (cache c) with
  | Some v => (Some v, with_cache c (Map_set key v (Map_delete key (cache c))))
  | None => (None, c)
  end.

(** [set]: an existing key is removed and put back at the end; otherwise, at
    capacity, the first (oldest) entry is removed before the insertion. *)
Definition LRUCache_set (key : string) (v : JSValue) (c : LRUCache)
  : LRUCache :=
  let mp :=
    if Map_has key (cache c) then Map_delete key (cache c)
    else if (maxSize c <=? Map_size (cache c))%nat then
      match Map_first_key (cache c) with
      | Some firstKey => Map_delete firstKey (cache c)
      | None => cache c
      end
    else cache c in
  with_cache c (Map_set key v mp).

Definition parseCache : LRUCache := new_LRUCache 100.

(** *** Lookup tables *)

Definition commonValues : object :=
  [ ("1s", number_of_Z 1000);
    ("2s", number_of_Z 2000);
    ("5s", number_of_Z 5000);
    ("10s", number_of_Z 10000);
    ("15s", number_of_Z 15000);
    ("30s", number_of_Z 30000);
    ("1m", number_of_Z 60000);
    ("2m", number_of_Z 120000);
    ("5m", number_of_Z 300000);
    ("10m", number_of_Z 600000);
    ("15m", number_of_Z 900000);
    ("30m", number_of_Z 1800000);
    ("1h", number_of_Z 3600000);
    ("2h", number_of_Z 7200000);
    ("3h", number_of_Z 10800000);
    ("6h", number_of_Z 21600000);
    ("12h", number_of_Z 43200000);
    ("1d", number_of_Z 86400000);
    ("2d", number_of_Z 172800000);
    ("7d", number_of_Z 604800000);
    ("1w", number_of_Z 604800000);
    ("2w", number_of_Z 1209600000);
    ("1mo", number_of_Z 2629800000);
    ("1y", number_of_Z 31557600000);
    ("1 s", number_of_Z 1000);
    ("1 m", number_of_Z 60000);
    ("1 h", number_of_Z 3600000);
    ("1 d", number_of_Z 86400000);
    ("1 w", number_of_Z 604800000);
    ("100", number_of_Z 100);
    ("1000", number_of_Z 1000);
    ("5000", number_of_Z 5000) ].

Definition unitMultipliers : object :=
  [ ("years", y); ("year", y); ("yrs", y); ("yr", y); ("y", y);
    ("months", mo); ("month", mo); ("mo", mo);
    ("weeks", w); ("week", w); ("w", w);
    ("days", d); ("day", d); ("d", d);
    ("hours", h); ("hour", h); ("hrs", h); ("hr", h); ("h", h);
    ("minutes", m); ("minute", m); ("mins", m); ("min", m); ("m", m);
    ("seconds", s); ("second", s); ("secs", s); ("sec", s); ("s", s);
    ("milliseconds", number_of_Z 1); ("millisecond", number_of_Z 1);
    ("msecs", number_of_Z 1); ("msec", number_of_Z 1);
    ("ms", number_of_Z 1) ].

(** *** parse *)

Definition invalid_argument (str : string) : error :=
  Error ("Value provided to ms.parse() must be a string with length between 1 and 99. value="
         ++ JSON_stringify str).

Definition unknown_unit (matchUnit str : string) : error :=
  Error ("Unknown unit " ++ dquote ++ matchUnit ++ dquote
         ++ " provided to ms.parse(). value=" ++ JSON_stringify str).

(** The rest of [parse]'s body once the cache and the table of common
    values have both missed: the pattern match, the unit table, the product
    and the insertion of the result into the cache. *)
Definition parse_match (str : string) (pc : LRUCache)
  : completion JSValue * LRUCache :=
  match RegExp_exec parseRegex str with
  | None => (Return (VNumber NaN), pc)
  | Some groups =>
      let value :=
        match Map_get "value" groups with
        | Some v => v
        | None => "undefined"
        end in
      let unit :=
        match Map_get "unit" groups with
        | Some u => u
        | None => "ms"
        end in
      let n := parseFloat value in
      let matchUnit := toLowerCase unit in
      match Object_get unitMultipliers matchUnit with
      | None => (Throw (unknown_unit matchUnit str), pc)
      | Some multiplier =>
          let result := number_mul n (ToNumber multiplier) in
          (Return (VNumber result), LRUCache_set str (VNumber result) pc)
      end
  end.

(** [parse str], run with the cache [pc]: the completion and the cache
    afterwards. The argument is a string by its type, so of the guard only
    the two length tests remain. *)
Definition parse (str : string) (pc : LRUCache)
  : completion JSValue * LRUCache :=
  if (strlen str =? 0) || (100 <? strlen str) then
    (Throw (invalid_argument str), pc)
  else
    let '(cached, pc) := LRUCache_get str pc in
    match cached with
    | Some v => (Return v, pc)
    | None =>
        match Object_get commonValues str with
        | Some commonValue =>
            (Return commonValue, LRUCache_set str commonValue pc)
        | None => parse_match str pc
        end
    end.

(** [parseStrict] *)
Definition parseStrict (value : string) (pc : LRUCache)
  : completion JSValue * LRUCache :=
  parse value pc.

(** *** format *)

Record Options : Type := { long : option bool }.

(** The template literal [`${x}`] of a number. *)
Definition show (x : number) : string := Number_toString x.

Definition plural (ms msAbs n : number) (name : string) : string :=
  let isPlural := number_ge msAbs (number_mul n (number_of_decimal false 15 (-1))) in
  show (Math_round (number_div ms n)) ++ " " ++ name
  ++ (if isPlural then "s" else "").

Definition fmtShort (ms : number) : string :=
  let msAbs := Math_abs ms in
  if number_ge msAbs y then show (Math_round (number_div ms y)) ++ "y"
  else if number_ge msAbs mo then show (Math_round (number_div ms mo)) ++ "mo"
  else if number_ge msAbs w then show (Math_round (number_div ms w)) ++ "w"
  else if number_ge msAbs d then show (Math_round (number_div ms d)) ++ "d"
  else if number_ge msAbs h then show (Math_round (number_div ms h)) ++ "h"
  else if number_ge msAbs m then show (Math_round (number_div ms m)) ++ "m"
  else if number_ge msAbs s then show (Math_round (number_div ms s)) ++ "s"
  else show ms ++ "ms".

Definition fmtLong (ms : number) : string :=
  let msAbs := Math_abs ms in
  if number_ge msAbs y then plural ms msAbs y "year"
  else if number_ge msAbs mo then plural ms msAbs mo "month"
  else if number_ge msAbs w then plural ms msAbs w "week"
  else if number_ge msAbs d then plural ms msAbs d "day"
  else if number_ge msAbs h then plural ms msAbs h "hour"
  else if number_ge msAbs m then plural ms msAbs m "minute"
  else if number_ge msAbs s then plural ms msAbs s "second"
  else show ms ++ " ms".

(** [format ms options]; [options] is [None] when the argument is left
    out. *)
Definition format (ms : number) (options : option Options)
  : completion string :=
  if negb (Number_isFinite ms) then
    Throw (Error "Value provided to ms.format() must be of type number.")
  else
    let verbose :=
      match options with
      | Some o => match long o with Some b => b | None => false end
      | None => false
      end in
    Return (if verbose then fmtLong ms else fmtShort ms).

(* ================================================================= *)
(** ** Notions used in the statements *)

(** [re.test(str)] *)
Definition RegExp_test (r : regex) (str : string) : bool :=
  match RegExp_exec r str with
  | Some _ => true
  | None => false
  end.

(** A magnitude: a string that the numeric part of the pattern matches
    from end to end, as [/^-?\d*\.?\d+$/] would. *)
Definition is_magnitude (v : string) : bool :=
  RegExp_test (Bol ;; value_pattern ;; Eol)%re v.

(** [k] spaces. *)
Fixpoint spaces (k : nat) : string :=
  match k with
  | O => ""
  | S k' => String " " (spaces k')
  end.

(** The states of [parseCache] that calls of [parse] can produce. *)
Inductive reachable : LRUCache -> Prop :=
| reach_init : reachable parseCache
| reach_parse : forall str pc,
    reachable pc -> reachable (snd (parse str pc)).

(** The states of an [LRUCache] of capacity 100 under its two methods. *)
Inductive cache_state : LRUCache -> Prop :=
| cs_new : cache_state (new_LRUCache 100)
| cs_get : forall key c, cache_state c -> cache_state (snd (LRUCache_get key c))
| cs_set : forall key v c, cache_state c -> cache_state (LRUCache_set key v c).

(** What [parse] answers when the cache is empty. *)
Definition uncached (str : string) : completion JSValue :=
  fst (parse str parseCache).

(** Every cached entry is one that [parse] computes and caches when it
    starts from the empty cache. *)
Definition cache_sound (pc : LRUCache) : Prop :=
  forall key v,
    Map_get key (cache pc) = Some v ->
    parse key parseCache = (Return v, LRUCache_set key v parseCache).

(** The lengths the interface documents as valid. *)
Definition valid_length (str : string) : Prop :=
  1 <= strlen str <= 99.

(** The cache is a [Map] (no key twice) within its capacity of 100. *)
Definition cache_wf (c : LRUCache) : Prop :=
  maxSize c = 100%nat /\ NoDup (Map_keys (cache c))
  /\ (Map_size (cache c) <= 100)%nat.

(** *** The language of a pattern *)

Fixpoint string_forall (p : ascii -> bool) (str : string) : bool :=
  match str with
  | String a r => p a && string_forall p r
  | "" => true
  end.

(** Patterns without groups and anchors. *)
Fixpoint plain (r : regex) : bool :=
  match r with
  | Atom _ | Star _ | Plus _ | Eps => true
  | Opt r1 => plain r1
  | Seq r1 r2 | Alt r1 r2 => plain r1 && plain r2
  | Group _ _ | Bol | Eol => false
  end.

(** The strings a plain pattern matches from end to end. *)
Fixpoint lang (r : regex) (u : string) : Prop :=
  match r with
  | Atom c => exists a, u = String a "" /\ atom_matches c a = true
  | Star c => string_forall (atom_matches c) u = true
  | Plus c => u <> "" /\ string_forall (atom_matches c) u = true
  | Opt r1 => u = "" \/ lang r1 u
  | Seq r1 r2 => exists u1 u2, u = u1 ++ u2 /\ lang r1 u1 /\ lang r2 u2
  | Alt r1 r2 => lang r1 u \/ lang r2 u
  | Eps => u = ""
  | Group _ _ | Bol | Eol => False
  end.

(** The characters a plain pattern can read. *)
Fixpoint alphabet (r : regex) (a : ascii) : bool :=
  match r with
  | Atom c | Star c | Plus c => atom_matches c a
  | Opt r1 => alphabet r1 a
  | Seq r1 r2 | Alt r1 r2 => alphabet r1 a || alphabet r2 a
  | Group _ _ | Bol | Eol | Eps => false
  end.

Definition isLower (a : ascii) : bool := (97 <=? code a) && (code a <=? 122).

(** Patterns made of lower-case letters, sequence, choice and option. *)
Fixpoint letters (r : regex) : bool :=
  match r with
  | Atom (Lit a) => isLower a
  | Eps => true
  | Opt r1 => letters r1
  | Seq r1 r2 | Alt r1 r2 => letters r1 && letters r2
  | _ => false
  end.

(** The lower-case words of such a pattern. *)
Fixpoint words (r : regex) : list string :=
  match r with
  | Atom (Lit a) => [String a ""]
  | Eps => [""]
  | Opt r1 => "" :: words r1
  | Seq r1 r2 => flat_map (fun w1 => map (append w1) (words r2)) (words r1)
  | Alt r1 r2 => words r1 ++ words r2
  | _ => []
  end.

Definition all_ascii : list ascii := map ascii_of_nat (seq 0 256).

(** The state a match of [u] leads to from [st], with [r'] left to read. *)
Definition advance (st : mstate) (u r' : string) : mstate :=
  {| index := index st + String.length u;
     captures := captures st;
     rest := r' |}.

(** The cache after the first [n] of the keys [key 0], [key 1], ... have
    been set in turn. *)
Fixpoint fill (key : nat -> string) (v : JSValue) (n : nat) : LRUCache :=
  match n with
  | O => new_LRUCache 100
  | S n' => LRUCache_set (key n') v (fill key v n')
  end.

(** The decimal numeral of [n], used as the [n]-th of a family of distinct
    keys. *)
Definition numbered (n : nat) : string := digits_of_Z (Z.of_nat n).

(** A full cache: the keys "0" to "99", set in that order. *)
Definition full_cache : LRUCache :=
  fill numbered (VNumber (number_of_Z 1)) 100.

(** *** Auxiliary notions of the proofs *)

(** The head of [r], if any, fails [p]. *)
Definition stops (p : ascii -> bool) (r : string) : Prop :=
  match r with
  | String a _ => p a = false
  | "" => True
  end.

(** What [set] leaves of the old entries, before the new one is appended. *)
Definition kept (key : string) (c : LRUCache) : Map JSValue :=
  if Map_has key (cache c) then Map_delete key (cache c)
  else if (maxSize c <=? Map_size (cache c))%nat then tl (cache c)
  else cache c.

Definition start (str : string) : mstate :=
  {| index := 0; captures := []; rest := str |}.

Definition isSpace (a : ascii) : bool := atom_matches (Lit " ") a.

(** [groups] is a reading of [str] as magnitude, spaces and optional unit. *)
Definition parses (str : string) (groups : list (string * string)) : Prop :=
  exists v sp t,
    str = v ++ sp ++ t /\ lang value_pattern v
    /\ string_forall isSpace sp = true
    /\ ((t = "" /\ groups = [("value", v)])
        \/ (lang unit_pattern t /\ groups = [("unit", t); ("value", v)])).

(* ================================================================= *)
(** ** The entry point [ms] *)

(** The argument of [ms] by its run-time type. For a value that is neither
    a string nor a number, [shown] is the text that [JSON.stringify] puts
    into the message. *)
Inductive argument : Type :=
| AString (str : string)
| ANumber (x : number)
| AOther (shown : string).

(** What [ms] returns: what [parse] returned, or the text of [format]. *)
Inductive msResult : Type :=
| RValue (v : JSValue)
| RString (text : string).

Definition ms (value : argument) (options : option Options) (pc : LRUCache)
  : completion msResult * LRUCache :=
  match value with
  | AString str =>
      let '(r, pc) := parse str pc in
      (match r with
       | Return v => Return (RValue v)
       | Throw e => Throw e
       end, pc)
  | ANumber x =>
      (match format x options with
       | Return text => Return (RString text)
       | Throw e => Throw e
       end, pc)
  | AOther shown =>
      (Throw (Error ("Value provided to ms() must be a string or number. value="
                     ++ shown)), pc)
  end.

(* ================================================================= *)
(** ** Further notions used in the statements *)

(** The states of an [LRUCache] of capacity [n] under its two methods. *)
Inductive lru_state (n : nat) : LRUCache -> Prop :=
| lru_new : lru_state n (new_LRUCache n)
| lru_get : forall key c,
    lru_state n c -> lru_state n (snd (LRUCache_get key c))
| lru_set : forall key v c,
    lru_state n c -> lru_state n (LRUCache_set key v c).

Definition isNaN (x : number) : bool :=
  match x with
  | S754_nan => true
  | _ => false
  end.

(** The same number, bit for bit. *)
Definition number_eqb (x x' : number) : bool :=
  match x, x' with
  | S754_zero b, S754_zero b' => Bool.eqb b b'
  | S754_infinity b, S754_infinity b' => Bool.eqb b b'
  | S754_nan, S754_nan => true
  | S754_finite b mx ex, S754_finite b' mx' ex' =>
      Bool.eqb b b' && Pos.eqb mx mx' && Z.eqb ex ex'
  | _, _ => false
  end.

(** The integers from [- kmax] to [kmax]. *)
Definition counts (kmax : Z) : list Z :=
  map (fun i => Z.of_nat i - kmax) (seq 0 (Z.to_nat (2 * kmax + 1))).

(** The units in milliseconds, each with the largest count that [format]
    still prints in that unit (1000 for years, which have no larger unit). *)
Definition whole_units : list (Z * Z) :=
  [ (1, 999); (1000, 59); (60000, 59); (3600000, 23); (86400000, 6);
    (604800000, 4); (2629800000, 11); (31557600000, 1000) ].

(** Whether [k] units of [U] milliseconds, formatted and parsed again from
    the empty cache, come back as the same number. *)
Definition round_trips (verbose : bool) (U k : Z) : bool :=
  match format (number_of_Z (k * U)) (Some {| long := Some verbose |}) with
  | Return text =>
      match uncached text with
      | Return (VNumber x) => number_eqb x (number_of_Z (k * U))
      | _ => false
      end
  | Throw _ => false
  end.


(** A magnitude spelled out: sign, integer digits, point, fraction
    digits. *)
Definition magnitude_parts (sign ip dot fp : string) : Prop :=
  (sign = "" \/ sign = "-")
  /\ string_forall isDigit ip = true
  /\ (dot = "" \/ dot = ".")
  /\ string_forall isDigit fp = true /\ fp <> "".

(** The number that a magnitude denotes: its digits as an integer, scaled
    down by the number of digits after the point, rounded to the nearest
    number; [neg] is set for a leading minus. *)
Definition magnitude_value (neg : bool) (ip dot fp : string) : number :=
  number_of_decimal neg (Z_of_digits (ip ++ fp))
                    (match dot with "" => 0 | _ => - strlen fp end).

(** The characters a magnitude without sign can start with. *)
Definition leads (a : ascii) : bool := isDigit a || Ascii.eqb a ".".

(** The number with the opposite sign. *)
Definition number_neg (x : number) : number := SFopp x.

(* ================================================================= *)
(** * Theorems *)

(* ================================================================= *)
(** ** Facts about [Map] *)

Section MapFacts.
Context {V : Type}.
Implicit Types (mp : Map V) (k key : string) (v : V).

Lemma Map_has_get key mp :
  Map_has key mp = match Map_get key mp with Some _ => true | None => false end.
Proof.
  induction mp as [|[k v] mp IH]; simpl; [reflexivity|].
  destruct (String.eqb k key); simpl; auto.
Qed.

Lemma Map_has_In key mp : Map_has key mp = true <-> In key (Map_keys mp).
Proof.
  induction mp as [|[k v] mp IH]; simpl.
  - split; [discriminate | tauto].
  - rewrite orb_true_iff, IH, String.eqb_eq. tauto.
Qed.

Lemma Map_has_false_In key mp :
  Map_has key mp = false <-> ~ In key (Map_keys mp).
Proof.
  rewrite <- Map_has_In. destruct (Map_has key mp); split; congruence.
Qed.

Lemma Map_set_fresh key v mp :
  Map_has key mp = false -> Map_set key v mp = (mp ++ [(key, v)])%list.
Proof.
  induction mp as [|[k v'] mp IH]; simpl; [reflexivity|].
  destruct (String.eqb k key); simpl; [discriminate|].
  intros H. now rewrite IH.
Qed.

Lemma Map_keys_delete_incl key k mp :
  In k (Map_keys (Map_delete key mp)) -> In k (Map_keys mp).
Proof.
  induction mp as [|[k' v'] mp IH]; simpl; [tauto|].
  destruct (String.eqb k' key); simpl; tauto.
Qed.

Lemma Map_delete_NoDup key mp :
  NoDup (Map_keys mp) -> NoDup (Map_keys (Map_delete key mp)).
Proof.
  induction mp as [|[k' v'] mp IH]; simpl; intros H; [constructor|].
  inversion H as [|? ? Hn Hd]; subst.
  destruct (String.eqb k' key); simpl; [assumption|].
  constructor; [|auto].
  intros Hin. apply Hn. eapply Map_keys_delete_incl; eassumption.
Qed.

Lemma Map_delete_has key mp :
  NoDup (Map_keys mp) -> Map_has key (Map_delete key mp) = false.
Proof.
  induction mp as [|[k' v'] mp IH]; simpl; intros H; [reflexivity|].
  inversion H as [|? ? Hn Hd]; subst.
  destruct (String.eqb k' key) eqn:E; simpl.
  - apply String.eqb_eq in E. subst. now apply Map_has_false_In.
  - rewrite E. simpl. auto.
Qed.

Lemma Map_get_delete_other key k mp :
  k <> key -> Map_get k (Map_delete key mp) = Map_get k mp.
Proof.
  intros Hne. induction mp as [|[k' v'] mp IH]; simpl; [reflexivity|].
  destruct (String.eqb k' key) eqn:E; simpl.
  - apply String.eqb_eq in E. subst.
    destruct (String.eqb key k) eqn:E'; [|reflexivity].
    apply String.eqb_eq in E'. congruence.
  - now rewrite IH.
Qed.

Lemma Map_get_app k mp1 mp2 :
  Map_get k (mp1 ++ mp2)%list =
  match Map_get k mp1 with Some v => Some v | None => Map_get k mp2 end.
Proof.
  induction mp1 as [|[k' v'] mp1 IH]; simpl; [reflexivity|].
  destruct (String.eqb k' k); auto.
Qed.

Lemma Map_size_delete key mp :
  Map_has key mp = true -> S (Map_size (Map_delete key mp)) = Map_size mp.
Proof.
  induction mp as [|[k' v'] mp IH]; simpl; [discriminate|].
  destruct (String.eqb k' key); simpl; [reflexivity|].
  intros H. f_equal. now apply IH.
Qed.

Lemma Map_keys_app mp1 mp2 :
  Map_keys (mp1 ++ mp2)%list = (Map_keys mp1 ++ Map_keys mp2)%list.
Proof. apply map_app. Qed.

(** Removing a key and putting it back moves it to the end. *)
Lemma Map_reinsert key v mp :
  NoDup (Map_keys mp) ->
  Map_set key v (Map_delete key mp) = (Map_delete key mp ++ [(key, v)])%list.
Proof. intros H. apply Map_set_fresh. now apply Map_delete_has. Qed.

Lemma NoDup_snoc (k : string) (l : list string) :
  NoDup l -> ~ In k l -> NoDup (l ++ [k])%list.
Proof.
  induction l as [|x l IH]; simpl; intros Hd Hn.
  - constructor; [tauto | constructor].
  - inversion Hd as [|? ? Hx Hl]; subst.
    constructor; [|apply IH; tauto].
    rewrite in_app_iff. simpl. intros [Hin | [-> | []]]; tauto.
Qed.

Lemma Map_reinsert_NoDup key v mp :
  NoDup (Map_keys mp) ->
  NoDup (Map_keys (Map_delete key mp ++ [(key, v)])%list).
Proof.
  intros H. rewrite Map_keys_app. simpl. apply NoDup_snoc.
  - now apply Map_delete_NoDup.
  - apply Map_has_false_In. now apply Map_delete_has.
Qed.

End MapFacts.

(* ================================================================= *)
(** ** Facts about [LRUCache] *)

Lemma Map_get_delete_Some {V : Type} (key k : string) (v : V) (mp : Map V) :
  NoDup (Map_keys mp) ->
  Map_get k (Map_delete key mp) = Some v -> Map_get k mp = Some v.
Proof.
  intros Hd Hget. destruct (String.eqb key k) eqn:E.
  - apply String.eqb_eq in E. subst k.
    pose proof (Map_delete_has key mp Hd) as Hh.
    rewrite Map_has_get, Hget in Hh. discriminate.
  - rewrite Map_get_delete_other in Hget; [assumption|].
    intros ->. rewrite String.eqb_refl in E. discriminate.
Qed.

Lemma LRUCache_get_miss (key : string) (c : LRUCache) :
  Map_get key (cache c) = None -> LRUCache_get key c = (None, c).
Proof. unfold LRUCache_get. now intros ->. Qed.

Lemma LRUCache_get_hit (key : string) (v : JSValue) (c : LRUCache) :
  NoDup (Map_keys (cache c)) ->
  Map_get key (cache c) = Some v ->
  LRUCache_get key c =
  (Some v, with_cache c (Map_delete key (cache c) ++ [(key, v)])%list).
Proof.
  intros Hd Hget. unfold LRUCache_get. rewrite Hget.
  now rewrite Map_reinsert.
Qed.

Lemma LRUCache_set_cache (key : string) (v : JSValue) (c : LRUCache) :
  NoDup (Map_keys (cache c)) ->
  cache (LRUCache_set key v c) = (kept key c ++ [(key, v)])%list.
Proof.
  intros Hd. unfold LRUCache_set, kept. simpl.
  destruct (Map_has key (cache c)) eqn:Hh.
  - now apply Map_reinsert.
  - destruct (maxSize c <=? Map_size (cache c))%nat.
    + destruct (cache c) as [|[k0 v0] mp] eqn:Hc; simpl; [reflexivity|].
      rewrite String.eqb_refl. apply Map_set_fresh.
      simpl in Hh. apply orb_false_iff in Hh. tauto.
    + now apply Map_set_fresh.
Qed.

Lemma kept_get (key k : string) (v : JSValue) (c : LRUCache) :
  NoDup (Map_keys (cache c)) ->
  Map_get k (kept key c) = Some v -> Map_get k (cache c) = Some v.
Proof.
  intros Hd. unfold kept.
  destruct (Map_has key (cache c)).
  - now apply Map_get_delete_Some.
  - destruct (maxSize c <=? Map_size (cache c))%nat; [|tauto].
    destruct (cache c) as [|[k0 v0] mp]; simpl; [discriminate|].
    inversion Hd as [|? ? Hn Hm]; subst.
    destruct (String.eqb k0 k) eqn:E; [|tauto].
    apply String.eqb_eq in E. subst k0. intros Hget.
    exfalso. apply Hn. apply Map_has_In. rewrite Map_has_get, Hget. reflexivity.
Qed.

Lemma kept_NoDup (key : string) (c : LRUCache) :
  NoDup (Map_keys (cache c)) ->
  NoDup (Map_keys (kept key c)) /\ ~ In key (Map_keys (kept key c)).
Proof.
  intros Hd. unfold kept.
  destruct (Map_has key (cache c)) eqn:Hh.
  - split; [now apply Map_delete_NoDup|].
    apply Map_has_false_In. now apply Map_delete_has.
  - apply Map_has_false_In in Hh.
    destruct (maxSize c <=? Map_size (cache c))%nat; [|tauto].
    destruct (cache c) as [|[k0 v0] mp]; simpl in *; [tauto|].
    inversion Hd; subst. tauto.
Qed.

Lemma kept_size (key : string) (c : LRUCache) :
  (0 < maxSize c)%nat ->
  (Map_size (cache c) <= maxSize c)%nat ->
  (S (Map_size (kept key c)) <= maxSize c)%nat.
Proof.
  intros Hpos Hle. unfold kept.
  destruct (Map_has key (cache c)) eqn:Hh.
  - rewrite (Map_size_delete _ _ Hh). assumption.
  - destruct (maxSize c <=? Map_size (cache c))%nat eqn:Hfull.
    + destruct (cache c) as [|[k0 v0] mp]; simpl in *; lia.
    + apply Nat.leb_gt in Hfull. lia.
Qed.

Lemma LRUCache_set_wf (key : string) (v : JSValue) (c : LRUCache) :
  cache_wf c -> cache_wf (LRUCache_set key v c).
Proof.
  intros (Hmax & Hd & Hsz). unfold cache_wf.
  rewrite (LRUCache_set_cache key v c Hd).
  destruct (kept_NoDup key c Hd) as [Hk Hn].
  split; [exact Hmax|]. split.
  - rewrite Map_keys_app. simpl. now apply NoDup_snoc.
  - unfold Map_size. rewrite List.length_app. simpl.
    pose proof (kept_size key c) as Hs. unfold Map_size in *.
    rewrite Hmax in Hs. lia.
Qed.

Lemma LRUCache_get_wf (key : string) (c : LRUCache) :
  cache_wf c -> cache_wf (snd (LRUCache_get key c)).
Proof.
  intros (Hmax & Hd & Hsz).
  destruct (Map_get key (cache c)) as [v|] eqn:Hget.
  - rewrite (LRUCache_get_hit key v c Hd Hget). unfold cache_wf. simpl.
    split; [exact Hmax|]. split.
    + now apply Map_reinsert_NoDup.
    + unfold Map_size in *. rewrite List.length_app. simpl.
      assert (Hh : Map_has key (cache c) = true)
        by (rewrite Map_has_get, Hget; reflexivity).
      pose proof (Map_size_delete key (cache c) Hh) as Hs.
      unfold Map_size in Hs. lia.
  - rewrite (LRUCache_get_miss key c Hget). simpl. now repeat split.
Qed.

Lemma cache_state_wf (c : LRUCache) : cache_state c -> cache_wf c.
Proof.
  induction 1 as [|key c Hc IH|key v c Hc IH].
  - repeat split; simpl; [constructor | lia].
  - now apply LRUCache_get_wf.
  - now apply LRUCache_set_wf.
Qed.

(** A hit is the same update of the cache as setting the value found. *)
Lemma LRUCache_get_hit_set (key : string) (v : JSValue) (c : LRUCache) :
  Map_get key (cache c) = Some v ->
  LRUCache_get key c = (Some v, LRUCache_set key v c).
Proof.
  intros Hget. unfold LRUCache_get, LRUCache_set. rewrite Hget.
  rewrite Map_has_get, Hget. reflexivity.
Qed.

Lemma LRUCache_set_get (key k : string) (v v' : JSValue) (c : LRUCache) :
  NoDup (Map_keys (cache c)) ->
  Map_get k (cache (LRUCache_set key v c)) = Some v' ->
  (k = key /\ v' = v) \/ Map_get k (cache c) = Some v'.
Proof.
  intros Hd. rewrite (LRUCache_set_cache key v c Hd), Map_get_app.
  destruct (Map_get k (kept key c)) as [v0|] eqn:Hk.
  - intros [= ->]. right. eapply kept_get; eassumption.
  - simpl. destruct (String.eqb key k) eqn:E; [|discriminate].
    apply String.eqb_eq in E. intros [= ->]. left. now subst.
Qed.

(* ================================================================= *)
(** ** Facts about strings *)

Lemma append_nil_r (u : string) : u ++ "" = u.
Proof. induction u as [|a u IH]; simpl; congruence. Qed.

Lemma append_assoc (u1 u2 u3 : string) : (u1 ++ u2) ++ u3 = u1 ++ (u2 ++ u3).
Proof. induction u1 as [|a u1 IH]; simpl; congruence. Qed.

Lemma length_append (u1 u2 : string) :
  String.length (u1 ++ u2) = (String.length u1 + String.length u2)%nat.
Proof. induction u1 as [|a u1 IH]; simpl; congruence. Qed.

Lemma take_append (u r : string) : take (String.length u) (u ++ r) = u.
Proof.
  unfold take. induction u as [|a u IH]; simpl.
  - destruct r; reflexivity.
  - now rewrite IH.
Qed.

Lemma string_forall_append (p : ascii -> bool) (u1 u2 : string) :
  string_forall p (u1 ++ u2) = string_forall p u1 && string_forall p u2.
Proof.
  induction u1 as [|a u1 IH]; simpl; [reflexivity|].
  now rewrite IH, andb_assoc.
Qed.

Lemma string_forall_impl (p q : ascii -> bool) (u : string) :
  (forall a, p a = true -> q a = true) ->
  string_forall p u = true -> string_forall q u = true.
Proof.
  intros Hpq. induction u as [|a u IH]; simpl; [reflexivity|].
  rewrite !andb_true_iff. intros [Ha Hu]. auto.
Qed.

Lemma span_append (p : ascii -> bool) (u r : string) :
  string_forall p u = true -> stops p r -> span p (u ++ r) = (u, r).
Proof.
  intros Hu Hr. induction u as [|a u IH]; simpl in *.
  - destruct r as [|b r]; simpl in *; [reflexivity|]. now rewrite Hr.
  - apply andb_true_iff in Hu. destruct Hu as [Ha Hu].
    rewrite Ha, (IH Hu). reflexivity.
Qed.

Lemma string_map_append (f : ascii -> ascii) (u1 u2 : string) :
  string_map f (u1 ++ u2) = string_map f u1 ++ string_map f u2.
Proof. induction u1 as [|a u1 IH]; simpl; congruence. Qed.

Lemma string_map_append_inv (f : ascii -> ascii) (u w1 w2 : string) :
  string_map f u = w1 ++ w2 ->
  exists u1 u2, u = u1 ++ u2 /\ string_map f u1 = w1 /\ string_map f u2 = w2.
Proof.
  revert u. induction w1 as [|b w1 IH]; simpl; intros u Hu.
  - exists "", u. auto.
  - destruct u as [|a u]; simpl in Hu; [discriminate|].
    injection Hu as Hb Hu. destruct (IH u Hu) as (u1 & u2 & -> & H1 & H2).
    exists (String a u1), u2. simpl. repeat split; congruence.
Qed.

(** Every character is one of the 256 of [all_ascii]. *)
Lemma all_ascii_complete (a : ascii) : In a all_ascii.
Proof.
  unfold all_ascii. rewrite <- (ascii_nat_embedding a).
  apply in_map, in_seq. pose proof (nat_ascii_bounded a). lia.
Qed.

Lemma forall_ascii (p : ascii -> bool) :
  forallb p all_ascii = true -> forall a, p a = true.
Proof.
  intros H a. rewrite forallb_forall in H. apply H, all_ascii_complete.
Qed.

(* ================================================================= *)
(** ** Facts about the matcher *)

Lemma advance_nil (st : mstate) : advance st "" (rest st) = st.
Proof. destruct st. unfold advance. simpl. now rewrite Nat.add_0_r. Qed.

Lemma advance_advance (st : mstate) (u1 u2 r1 r2 : string) :
  advance (advance st u1 r1) u2 r2 = advance st (u1 ++ u2) r2.
Proof.
  unfold advance. simpl. now rewrite length_append, Nat.add_assoc.
Qed.

Lemma star_atom_In (c : atom) (str : string) :
  forall idx caps st',
    In st' (star_atom c idx caps str) <->
    exists u r',
      str = u ++ r' /\ string_forall (atom_matches c) u = true
      /\ st' = {| index := idx + String.length u; captures := caps; rest := r' |}.
Proof.
  induction str as [|a str IH]; intros idx caps st'; simpl.
  - split.
    + intros [<- | []]. exists "", "". simpl. now rewrite Nat.add_0_r.
    + intros (u & r' & Hs & _ & ->).
      destruct u; [|discriminate]. simpl in Hs. subst r'. simpl.
      rewrite Nat.add_0_r. now left.
  - rewrite in_app_iff. split.
    + intros [Hin | [<- | []]].
      * destruct (atom_matches c a) eqn:Ha; [|destruct Hin].
        apply IH in Hin. destruct Hin as (u & r' & -> & Hu & ->).
        exists (String a u), r'. simpl. rewrite Ha, Hu.
        now rewrite Nat.add_succ_r.
      * exists "", (String a str). simpl. now rewrite Nat.add_0_r.
    + intros (u & r' & Hs & Hu & ->). destruct u as [|b u]; simpl in *.
      * subst r'. right. left. now rewrite Nat.add_0_r.
      * injection Hs as <- ->. apply andb_true_iff in Hu.
        destruct Hu as [Ha Hu]. rewrite Ha. left. apply IH.
        exists u, r'. now rewrite Nat.add_succ_r.
Qed.

Lemma step_atom_In (c : atom) (st st' : mstate) :
  In st' (step_atom c st) <->
  exists a r', rest st = String a r' /\ atom_matches c a = true
               /\ st' = advance st (String a "") r'.
Proof.
  unfold step_atom, advance. destruct (rest st) as [|a r]; simpl.
  - split; [tauto | intros (? & ? & ? & _); discriminate].
  - split.
    + destruct (atom_matches c a) eqn:Ha; [|intros []].
      intros [<- | []]. exists a, r. now rewrite Nat.add_1_r.
    + intros (b & r' & [= <- <-] & Ha & ->). rewrite Ha. left.
      now rewrite Nat.add_1_r.
Qed.

(** The matcher and the language agree on plain patterns. *)
Lemma run_plain (r : regex) :
  plain r = true ->
  forall st st',
    In st' (run r st) <->
    exists u r', rest st = u ++ r' /\ lang r u /\ st' = advance st u r'.
Proof.
  induction r as [c|c|c|r1 IH1|r1 IH1 r2 IH2|r1 IH1 r2 IH2|name r1 IH1| | |];
    simpl; intros Hp st st'; try discriminate.
  - (* Atom *)
    rewrite step_atom_In. split.
    + intros (a & r' & Hr & Ha & ->). exists (String a ""), r'. eauto.
    + intros (u & r' & Hr & (a & -> & Ha) & ->). exists a, r'. auto.
  - (* Star *)
    rewrite star_atom_In. reflexivity.
  - (* Plus *)
    rewrite in_flat_map. split.
    + intros (st1 & H1 & H2). apply step_atom_In in H1.
      destruct H1 as (a & r1 & Hr & Ha & ->). simpl in H2.
      apply star_atom_In in H2. destruct H2 as (u & r' & -> & Hu & ->).
      exists (String a u), r'. simpl. rewrite Ha, Hu. unfold advance. simpl.
      repeat split; try assumption; try discriminate.
      f_equal. lia.
    + intros (u & r' & Hr & [Hne Hu] & ->).
      destruct u as [|a u]; [congruence|]. simpl in Hu, Hr.
      apply andb_true_iff in Hu. destruct Hu as [Ha Hu].
      exists (advance st (String a "") (u ++ r')). split.
      * apply step_atom_In. eauto.
      * simpl. apply star_atom_In. exists u, r'. unfold advance. simpl.
        repeat split; try assumption. f_equal. lia.
  - (* Opt *)
    rewrite in_app_iff, (IH1 Hp). simpl. split.
    + intros [(u & r' & Hr & Hl & ->) | [<- | []]].
      * exists u, r'. auto.
      * exists "", (rest st). rewrite advance_nil. auto.
    + intros (u & r' & Hr & [-> | Hl] & ->).
      * simpl in Hr. subst r'. rewrite advance_nil. auto.
      * left. eauto.
  - (* Seq *)
    apply andb_true_iff in Hp. destruct Hp as [Hp1 Hp2].
    rewrite in_flat_map. split.
    + intros (st1 & H1 & H2). apply (IH1 Hp1) in H1. apply (IH2 Hp2) in H2.
      destruct H1 as (u1 & r1' & Hr1 & Hl1 & ->).
      destruct H2 as (u2 & r2' & Hr2 & Hl2 & ->). simpl in Hr2. subst r1'.
      exists (u1 ++ u2), r2'. rewrite append_assoc, advance_advance. eauto 8.
    + intros (u & r' & Hr & (u1 & u2 & -> & Hl1 & Hl2) & ->).
      rewrite append_assoc in Hr.
      exists (advance st u1 (u2 ++ r')). split.
      * apply (IH1 Hp1). eauto.
      * apply (IH2 Hp2). exists u2, r'. rewrite advance_advance. auto.
  - (* Alt *)
    apply andb_true_iff in Hp. destruct Hp as [Hp1 Hp2].
    rewrite in_app_iff, (IH1 Hp1), (IH2 Hp2). split.
    + intros [(u & r' & ? & ? & ?) | (u & r' & ? & ? & ?)]; exists u, r'; auto.
    + intros (u & r' & ? & [?|?] & ?); [left | right]; eauto.
  - (* Eps *)
    split.
    + intros [<- | []]. exists "", (rest st). rewrite advance_nil. auto.
    + intros (u & r' & Hr & -> & ->). simpl in Hr. subst r'.
      rewrite advance_nil. now left.
Qed.

(** What a plain pattern matches is written in its alphabet. *)
Lemma lang_alphabet (r : regex) (u : string) :
  lang r u -> string_forall (alphabet r) u = true.
Proof.
  revert u.
  induction r as [c|c|c|r1 IH1|r1 IH1 r2 IH2|r1 IH1 r2 IH2|name r1 IH1| | |];
    simpl; intros u Hl; try tauto.
  - destruct Hl as (a & -> & Ha). simpl. now rewrite Ha.
  - destruct Hl as [-> | Hl]; [reflexivity | auto].
  - destruct Hl as (u1 & u2 & -> & H1 & H2).
    rewrite string_forall_append, andb_true_iff. split.
    + eapply string_forall_impl; [|apply (IH1 _ H1)].
      intros a Ha. simpl. now rewrite Ha.
    + eapply string_forall_impl; [|apply (IH2 _ H2)].
      intros a Ha. simpl. rewrite Ha. apply orb_true_r.
  - destruct Hl as [Hl | Hl].
    + eapply string_forall_impl; [|apply (IH1 _ Hl)].
      intros a Ha. simpl. now rewrite Ha.
    + eapply string_forall_impl; [|apply (IH2 _ Hl)].
      intros a Ha. simpl. rewrite Ha. apply orb_true_r.
  - now subst.
Qed.

(** *** Words of a pattern of letters *)

Lemma letter_matches :
  forall a b, isLower b = true ->
    atom_matches (Lit b) a = Ascii.eqb (lowerChar a) b.
Proof.
  assert (H : forallb (fun a => forallb (fun b =>
                implb (isLower b)
                      (Bool.eqb (atom_matches (Lit b) a)
                                (Ascii.eqb (lowerChar a) b)))
              all_ascii) all_ascii = true) by (vm_compute; reflexivity).
  intros a b Hb.
  pose proof (forall_ascii _ (forall_ascii _ H a) b) as Hab.
  simpl in Hab. rewrite Hb in Hab. simpl in Hab.
  now apply Bool.eqb_prop in Hab.
Qed.

Lemma toLowerCase_nil (u : string) : toLowerCase u = "" -> u = "".
Proof. destruct u; [reflexivity | discriminate]. Qed.

Lemma words_lang (r : regex) :
  letters r = true ->
  forall u, lang r u <-> In (toLowerCase u) (words r).
Proof.
  induction r as [c|c|c|r1 IH1|r1 IH1 r2 IH2|r1 IH1 r2 IH2|name r1 IH1| | |];
    cbn [lang letters words]; intros Hl u; try discriminate.
  - (* Atom *)
    destruct c as [b|]; [|discriminate]. split.
    + intros (a & -> & Ha). rewrite (letter_matches a b Hl) in Ha.
      apply Ascii.eqb_eq in Ha. left. unfold toLowerCase.
      cbn [string_map]. now rewrite Ha.
    + intros [Hu | []]. unfold toLowerCase in Hu.
      destruct u as [|a [|a' u]]; cbn [string_map] in Hu; try discriminate.
      injection Hu as Hu. exists a. split; [reflexivity|].
      rewrite (letter_matches a b Hl). now apply Ascii.eqb_eq.
  - (* Opt *)
    rewrite (IH1 Hl). split.
    + intros [-> | H]; [now left | now right].
    + intros [H | H]; [left | now right].
      symmetry in H. now apply toLowerCase_nil.
  - (* Seq *)
    apply andb_true_iff in Hl. destruct Hl as [Hl1 Hl2].
    rewrite in_flat_map. split.
    + intros (u1 & u2 & -> & H1 & H2).
      exists (toLowerCase u1). split; [now apply IH1|].
      apply in_map_iff. exists (toLowerCase u2).
      split; [|now apply IH2]. unfold toLowerCase.
      now rewrite string_map_append.
    + intros (w1 & H1 & H2). apply in_map_iff in H2.
      destruct H2 as (w2 & Hw & H2). symmetry in Hw.
      apply string_map_append_inv in Hw.
      destruct Hw as (u1 & u2 & -> & <- & <-).
      exists u1, u2. split; [reflexivity|].
      split; [now apply IH1 | now apply IH2].
  - (* Alt *)
    apply andb_true_iff in Hl. destruct Hl as [Hl1 Hl2].
    now rewrite in_app_iff, (IH1 Hl1), (IH2 Hl2).
  - (* Eps *)
    split.
    + intros ->. now left.
    + intros [H | []]. symmetry in H. now apply toLowerCase_nil.
Qed.

(** The unit part of the pattern accepts exactly the spellings of the type
    aliases, in any mix of cases. *)
Lemma unit_pattern_lang (u : string) :
  lang unit_pattern u <-> In (toLowerCase u) (List.concat Unit).
Proof.
  rewrite (words_lang unit_pattern eq_refl).
  assert (H1 : incl (words unit_pattern) (List.concat Unit)).
  { intros x Hx. vm_compute in Hx. vm_compute. tauto. }
  assert (H2 : incl (List.concat Unit) (words unit_pattern)).
  { intros x Hx. vm_compute in Hx. vm_compute. tauto. }
  split; [apply H1 | apply H2].
Qed.

(** *** The matches of [parseRegex] *)

Lemma run_Group_plain (name : string) (r : regex) :
  plain r = true ->
  forall st st',
    In st' (run (Group name r) st) <->
    exists u r',
      rest st = u ++ r' /\ lang r u
      /\ st' = {| index := index st + String.length u;
                  captures := set_capture name u (captures st);
                  rest := r' |}.
Proof.
  intros Hp st st'. simpl. rewrite in_map_iff. split.
  - intros (st1 & <- & H1). apply (run_plain r Hp) in H1.
    destruct H1 as (u & r' & Hr & Hl & ->). exists u, r'.
    repeat split; try assumption. simpl. f_equal. f_equal.
    replace (index st + String.length u - index st)%nat
      with (String.length u) by lia.
    rewrite Hr. apply take_append.
  - intros (u & r' & Hr & Hl & ->). exists (advance st u r'). split.
    + simpl. f_equal. f_equal.
      replace (index st + String.length u - index st)%nat
        with (String.length u) by lia.
      rewrite Hr. apply take_append.
    + apply (run_plain r Hp). eauto.
Qed.

Lemma run_Seq (r1 r2 : regex) (st st' : mstate) :
  In st' (run (Seq r1 r2) st) <->
  exists st1, In st1 (run r1 st) /\ In st' (run r2 st1).
Proof. simpl. apply in_flat_map. Qed.

Lemma run_Opt (r : regex) (st st' : mstate) :
  In st' (run (Opt r) st) <-> In st' (run r st) \/ st' = st.
Proof. simpl. rewrite in_app_iff. simpl. intuition. Qed.

Lemma run_Eol (st st' : mstate) :
  In st' (run Eol st) <-> rest st = "" /\ st' = st.
Proof.
  simpl. destruct (rest st); simpl; intuition; discriminate.
Qed.

Lemma run_Bol_start (str : string) (st' : mstate) :
  In st' (run Bol (start str)) <-> st' = start str.
Proof. simpl. intuition. Qed.

Lemma run_parseRegex (str : string) (groups : list (string * string)) :
  (exists st, In st (run parseRegex (start str)) /\ captures st = groups)
  <-> parses str groups.
Proof.
  unfold parseRegex, parses. split.
  - intros (st & Hin & <-).
    apply run_Seq in Hin. destruct Hin as (st0 & H0 & Hin).
    apply run_Bol_start in H0. subst st0.
    apply run_Seq in Hin. destruct Hin as (st1 & H1 & Hin).
    apply (proj1 (run_Group_plain "value" value_pattern eq_refl _ _)) in H1.
    destruct H1 as (v & r1 & Hr1 & Hv & ->).
    apply run_Seq in Hin. destruct Hin as (st2 & H2 & Hin).
    apply (proj1 (run_plain (Star (Lit " ")) eq_refl _ _)) in H2.
    destruct H2 as (sp & r2 & Hr2 & Hsp & ->).
    apply run_Seq in Hin. destruct Hin as (st3 & H3 & Hin).
    apply run_Eol in Hin. destruct Hin as [Hr3 ->].
    simpl in Hr1, Hr2. subst str r1.
    exists v, sp, r2. repeat split; try assumption.
    apply run_Opt in H3. destruct H3 as [H3 | ->].
    + apply (proj1 (run_Group_plain "unit" unit_pattern eq_refl _ _)) in H3.
      destruct H3 as (t & r3 & Hr & Ht & ->). simpl in Hr, Hr3.
      subst r3 r2. rewrite append_nil_r. right. split; [assumption|].
      reflexivity.
    + simpl in Hr3. subst r2. left. split; reflexivity.
  - intros (v & sp & t & -> & Hv & Hsp & Ht).
    set (st1 := {| index := 0 + String.length v;
                   captures := set_capture "value" v [];
                   rest := sp ++ t |}).
    assert (H1 : In st1 (run (Group "value" value_pattern) (start (v ++ sp ++ t)))).
    { apply (proj2 (run_Group_plain "value" value_pattern eq_refl _ _)).
      exists v, (sp ++ t). auto. }
    assert (H2 : In (advance st1 sp t) (run (Star (Lit " ")) st1)).
    { apply (proj2 (run_plain (Star (Lit " ")) eq_refl _ _)).
      exists sp, t. auto. }
    destruct Ht as [[-> ->] | [Ht ->]].
    + exists (advance st1 sp ""). split; [|reflexivity].
      apply run_Seq. exists (start (v ++ sp ++ "")).
      split; [now apply run_Bol_start|].
      apply run_Seq. exists st1. split; [assumption|].
      apply run_Seq. exists (advance st1 sp ""). split; [assumption|].
      apply run_Seq. exists (advance st1 sp ""). split.
      * apply run_Opt. now right.
      * apply run_Eol. auto.
    + set (st3 := {| index := index (advance st1 sp t) + String.length t;
                     captures := set_capture "unit" t (captures (advance st1 sp t));
                     rest := "" |}).
      exists st3. split; [|reflexivity].
      apply run_Seq. exists (start (v ++ sp ++ t)).
      split; [now apply run_Bol_start|].
      apply run_Seq. exists st1. split; [assumption|].
      apply run_Seq. exists (advance st1 sp t). split; [assumption|].
      apply run_Seq. exists st3. split.
      * apply run_Opt. left.
        apply (proj2 (run_Group_plain "unit" unit_pattern eq_refl _ _)).
        exists t, "". simpl. rewrite append_nil_r. auto.
      * apply run_Eol. auto.
Qed.

(** A pattern anchored by [^] matches at the start of the input or not at
    all. *)
Lemma exec_from_Bol (r : regex) (str : string) :
  forall idx, exec_from (Seq Bol r) (S idx) str = None.
Proof.
  induction str as [|a str IH]; intros idx; simpl; [reflexivity|].
  apply IH.
Qed.

Lemma exec_Bol (r : regex) (str : string) :
  RegExp_exec (Seq Bol r) str =
  match run (Seq Bol r) (start str) with
  | st :: _ => Some (captures st)
  | [] => None
  end.
Proof.
  unfold RegExp_exec, start. destruct str as [|a str]; cbn [exec_from].
  - reflexivity.
  - rewrite exec_from_Bol. reflexivity.
Qed.

(** The three parts of the pattern read disjoint sets of characters. *)
Lemma space_not_value :
  forall a, isSpace a = true -> alphabet value_pattern a = false.
Proof.
  assert (H : forallb (fun a => implb (isSpace a)
                (negb (alphabet value_pattern a))) all_ascii = true)
    by (vm_compute; reflexivity).
  intros a. generalize (forall_ascii _ H a).
  destruct (isSpace a), (alphabet value_pattern a); simpl; congruence.
Qed.

Lemma unit_not_value :
  forall a, alphabet unit_pattern a = true -> alphabet value_pattern a = false.
Proof.
  assert (H : forallb (fun a => implb (alphabet unit_pattern a)
                (negb (alphabet value_pattern a))) all_ascii = true)
    by (vm_compute; reflexivity).
  intros a. generalize (forall_ascii _ H a).
  destruct (alphabet unit_pattern a), (alphabet value_pattern a);
    simpl; congruence.
Qed.

Lemma unit_not_space :
  forall a, alphabet unit_pattern a = true -> isSpace a = false.
Proof.
  assert (H : forallb (fun a => implb (alphabet unit_pattern a)
                (negb (isSpace a))) all_ascii = true)
    by (vm_compute; reflexivity).
  intros a. generalize (forall_ascii _ H a).
  destruct (alphabet unit_pattern a), (isSpace a); simpl; congruence.
Qed.

Lemma unit_pattern_nonempty : ~ lang unit_pattern "".
Proof.
  rewrite unit_pattern_lang. vm_compute. intuition discriminate.
Qed.

(** A reading determines its three parts. *)
Lemma reading_unique (v sp t : string) :
  lang value_pattern v -> string_forall isSpace sp = true ->
  t = "" \/ lang unit_pattern t ->
  span (alphabet value_pattern) (v ++ sp ++ t) = (v, sp ++ t)
  /\ span isSpace (sp ++ t) = (sp, t).
Proof.
  intros Hv Hsp Ht.
  assert (Hst : stops isSpace t /\ stops (alphabet value_pattern) t).
  { destruct Ht as [-> | Ht]; [cbn [stops]; auto|].
    apply lang_alphabet in Ht. destruct t as [|a t]; cbn [stops]; [auto|].
    cbn [string_forall] in Ht. apply andb_true_iff in Ht.
    destruct Ht as [Ha _].
    split; [now apply unit_not_space | now apply unit_not_value]. }
  split.
  - apply span_append; [now apply lang_alphabet|].
    destruct sp as [|a sp]; cbn [append stops]; [tauto|].
    cbn [string_forall] in Hsp. apply andb_true_iff in Hsp.
    destruct Hsp as [Ha _]. now apply space_not_value.
  - apply span_append; tauto.
Qed.

Lemma parses_unique (str : string) (g g' : list (string * string)) :
  parses str g -> parses str g' -> g = g'.
Proof.
  intros (v & sp & t & Hs & Hv & Hsp & Ht) (v' & sp' & t' & Hs' & Hv' & Hsp' & Ht').
  assert (Hu : t = "" \/ lang unit_pattern t) by tauto.
  assert (Hu' : t' = "" \/ lang unit_pattern t') by tauto.
  destruct (reading_unique v sp t Hv Hsp Hu) as [E1 E2].
  destruct (reading_unique v' sp' t' Hv' Hsp' Hu') as [E1' E2'].
  rewrite <- Hs in E1. rewrite <- Hs' in E1'. rewrite E1 in E1'.
  injection E1' as <- E. rewrite E, E2' in E2. injection E2 as <- <-.
  destruct Ht as [[-> ->] | [Hl ->]], Ht' as [[E' ->] | [Hl' ->]];
    try reflexivity.
  - exfalso. now apply unit_pattern_nonempty.
  - subst. exfalso. now apply unit_pattern_nonempty.
Qed.

(** [parseRegex.exec] finds the reading of the string, if there is one. *)
Lemma exec_parses (str : string) (groups : list (string * string)) :
  RegExp_exec parseRegex str = Some groups <-> parses str groups.
Proof.
  unfold parseRegex. rewrite exec_Bol. fold parseRegex. split.
  - destruct (run parseRegex (start str)) as [|st l] eqn:Hrun; [discriminate|].
    intros [= <-]. apply run_parseRegex. exists st. rewrite Hrun.
    split; [now left | reflexivity].
  - intros Hp. pose proof Hp as Hp'. apply run_parseRegex in Hp'.
    destruct Hp' as (st' & Hin & _).
    destruct (run parseRegex (start str)) as [|st l] eqn:Hrun; [destruct Hin|].
    f_equal. apply (parses_unique str); [|assumption].
    apply run_parseRegex. exists st. rewrite Hrun.
    split; [now left | reflexivity].
Qed.

(** A magnitude is a word of the numeric part of the pattern. *)
Lemma is_magnitude_lang (v : string) :
  is_magnitude v = true <-> lang value_pattern v.
Proof.
  unfold is_magnitude, RegExp_test. rewrite exec_Bol. split.
  - destruct (run _ (start v)) as [|st l] eqn:Hrun; [discriminate|].
    intros _. assert (Hin : In st (run (Bol ;; value_pattern ;; Eol)%re (start v)))
      by (rewrite Hrun; now left).
    apply run_Seq in Hin. destruct Hin as (st0 & H0 & Hin).
    apply run_Bol_start in H0. subst st0.
    apply run_Seq in Hin. destruct Hin as (st1 & H1 & Hin).
    apply (proj1 (run_plain value_pattern eq_refl _ _)) in H1.
    destruct H1 as (u & r' & Hr & Hl & ->).
    apply run_Eol in Hin. destruct Hin as [Hr' _]. simpl in Hr, Hr'.
    subst r' v. now rewrite append_nil_r.
  - intros Hl.
    assert (Hin : In (advance (start v) v "")
                     (run (Bol ;; value_pattern ;; Eol)%re (start v))).
    { apply run_Seq. exists (start v). split; [now apply run_Bol_start|].
      apply run_Seq. exists (advance (start v) v ""). split.
      - apply (proj2 (run_plain value_pattern eq_refl _ _)). exists v, "". simpl.
        rewrite append_nil_r. auto.
      - apply run_Eol. auto. }
    destruct (run _ (start v)); [destruct Hin | reflexivity].
Qed.

(* ================================================================= *)
(** ** [parse] and its cache *)

Lemma valid_length_guard (str : string) :
  valid_length str -> (strlen str =? 0) || (100 <? strlen str) = false.
Proof.
  unfold valid_length. intros H. apply orb_false_iff. split.
  - apply Z.eqb_neq. lia.
  - apply Z.ltb_ge. lia.
Qed.

(** The pattern part of [parse] either leaves the cache alone or returns a
    number and stores it under the input. *)
Lemma parse_match_shape (str : string) :
  (exists c, forall pc, parse_match str pc = (c, pc))
  \/ (exists x, forall pc,
         parse_match str pc
         = (Return (VNumber x), LRUCache_set str (VNumber x) pc)).
Proof.
  unfold parse_match.
  destruct (RegExp_exec parseRegex str) as [groups|]; [|left; eauto].
  destruct (Object_get unitMultipliers _) as [multiplier|];
    [right | left]; eauto.
Qed.

Lemma parse_miss_shape (str : string) :
  (exists c, forall pc, Map_get str (cache pc) = None -> parse str pc = (c, pc))
  \/ (exists v, forall pc,
         Map_get str (cache pc) = None ->
         parse str pc = (Return v, LRUCache_set str v pc)).
Proof.
  unfold parse.
  destruct ((strlen str =? 0) || (100 <? strlen str)); [left; eauto|].
  destruct (Object_get commonValues str) as [cv|].
  - right. exists cv. intros pc Hm. now rewrite (LRUCache_get_miss str pc Hm).
  - destruct (parse_match_shape str) as [[c Hc] | [x Hx]].
    + left. exists c. intros pc Hm.
      now rewrite (LRUCache_get_miss str pc Hm), Hc.
    + right. exists (VNumber x). intros pc Hm.
      now rewrite (LRUCache_get_miss str pc Hm), Hx.
Qed.

Lemma parse_hit (str : string) (v : JSValue) (pc : LRUCache) :
  (strlen str =? 0) || (100 <? strlen str) = false ->
  Map_get str (cache pc) = Some v ->
  parse str pc = (Return v, LRUCache_set str v pc).
Proof.
  intros Hg Hget. unfold parse.
  now rewrite Hg, (LRUCache_get_hit_set str v pc Hget).
Qed.

Lemma parse_guard (str : string) (pc : LRUCache) :
  (strlen str =? 0) || (100 <? strlen str) = true ->
  parse str pc = (Throw (invalid_argument str), pc).
Proof. intros Hg. unfold parse. now rewrite Hg. Qed.

(** With a sound cache, [parse] answers as it does from the empty cache,
    and it updates the cache exactly when the empty cache would be. *)
Lemma parse_cases (str : string) (pc : LRUCache) :
  cache_sound pc ->
  (parse str parseCache = (uncached str, parseCache)
   /\ parse str pc = (uncached str, pc))
  \/ (exists v,
         parse str parseCache = (Return v, LRUCache_set str v parseCache)
         /\ parse str pc = (Return v, LRUCache_set str v pc)).
Proof.
  intros Hs. unfold uncached.
  destruct ((strlen str =? 0) || (100 <? strlen str)) eqn:Hg.
  { left. rewrite !(parse_guard str _ Hg). auto. }
  destruct (Map_get str (cache pc)) as [v|] eqn:Hget.
  - right. exists v. split; [now apply Hs | now apply parse_hit].
  - destruct (parse_miss_shape str) as [[c Hc] | [v Hv]].
    + left. rewrite (Hc parseCache eq_refl), (Hc pc Hget). auto.
    + right. exists v. rewrite (Hv parseCache eq_refl), (Hv pc Hget). auto.
Qed.

Lemma parse_preserves (str : string) (pc : LRUCache) :
  cache_wf pc -> cache_sound pc ->
  cache_wf (snd (parse str pc)) /\ cache_sound (snd (parse str pc)).
Proof.
  intros Hwf Hs.
  destruct (parse_cases str pc Hs) as [[_ ->] | (v & He & ->)]; simpl.
  - auto.
  - split; [now apply LRUCache_set_wf|].
    intros key v' Hget.
    destruct Hwf as (_ & Hd & _).
    destruct (LRUCache_set_get str key v v' pc Hd Hget) as [[-> ->] | Hold].
    + exact He.
    + now apply Hs.
Qed.

Lemma reachable_inv (pc : LRUCache) :
  reachable pc -> cache_wf pc /\ cache_sound pc.
Proof.
  induction 1 as [|str pc Hr [Hwf Hs]].
  - split.
    + repeat split; simpl; [constructor | lia].
    + intros key v Hget. discriminate.
  - now apply parse_preserves.
Qed.

(** The cache never changes an answer. *)
Lemma parse_reachable (str : string) (pc : LRUCache) :
  reachable pc -> fst (parse str pc) = uncached str.
Proof.
  intros Hr. destruct (reachable_inv pc Hr) as [_ Hs].
  destruct (parse_cases str pc Hs) as [[_ ->] | (v & He & ->)].
  - reflexivity.
  - unfold uncached. now rewrite He.
Qed.

(** The states [parse] reaches are states of the cache class. *)
Lemma reachable_cache_state (pc : LRUCache) : reachable pc -> cache_state pc.
Proof.
  induction 1 as [|str pc Hr IH]; [constructor|].
  destruct (reachable_inv pc Hr) as [_ Hs].
  destruct (parse_cases str pc Hs) as [[_ ->] | (v & _ & ->)]; simpl.
  - assumption.
  - now constructor.
Qed.

(* ================================================================= *)
(** ** The lookup tables *)

(** Case analysis on [H : In x [a1; ...; an]], closing each case with
    [tac]. *)
Ltac members H tac :=
  repeat (destruct H as [H | H]; [tac|]); destruct H.

Lemma own_property_In (o : object) (key : string) (x : number) :
  own_property o key = Some x -> In (key, x) o.
Proof.
  induction o as [|[k x'] o IH]; simpl; [discriminate|].
  destruct (String.eqb k key) eqn:E; [|auto].
  apply String.eqb_eq in E. intros [= ->]. left. now subst.
Qed.

Lemma parse_match_fst (str : string) (pc pc' : LRUCache) :
  fst (parse_match str pc) = fst (parse_match str pc').
Proof.
  destruct (parse_match_shape str) as [[c Hc] | [x Hx]].
  - now rewrite (Hc pc), (Hc pc').
  - now rewrite (Hx pc), (Hx pc').
Qed.

(** Every entry of [commonValues] has a key of valid length that the table
    finds again, and holds the number that the pattern and the unit table
    compute for that key, which the pattern matches. *)
Lemma commonValues_entry (key : string) (x : number) :
  In (key, x) commonValues ->
  valid_length key
  /\ Object_get commonValues key = Some (VNumber x)
  /\ fst (parse_match key parseCache) = Return (VNumber x)
  /\ RegExp_exec parseRegex key <> None.
Proof.
  intros H. unfold commonValues in H. cbn [In] in H.
  members H ltac:(injection H as <- <-;
                  split; [vm_compute; split; discriminate|];
                  split; [vm_compute; reflexivity|];
                  split; [vm_compute; reflexivity | vm_compute; discriminate]).
Qed.

(** No property inherited from [Object.prototype] is a duration. *)
Lemma inherited_no_match (key : string) :
  inherited key = true -> RegExp_exec parseRegex key = None.
Proof.
  unfold inherited. rewrite existsb_exists. intros (k & Hk & E).
  apply String.eqb_eq in E. subst k.
  unfold Object_prototype_keys in Hk. cbn [In] in Hk.
  members Hk ltac:(subst key; vm_compute; reflexivity).
Qed.

Lemma Object_get_cases (o : object) (key : string) (v : JSValue) :
  Object_get o key = Some v ->
  (exists x, In (key, x) o /\ v = VNumber x)
  \/ (inherited key = true /\ v = VBuiltin key).
Proof.
  unfold Object_get. destruct (own_property o key) as [x|] eqn:E.
  - intros [= <-]. left. exists x. split; [now apply own_property_In | auto].
  - destruct (inherited key); [|discriminate]. intros [= <-]. now right.
Qed.

(** Each unit has one multiplier, found under every one of its
    spellings. *)
Lemma unit_multiplier (U : list string) :
  In U Unit ->
  exists x, forall u, In u U -> Object_get unitMultipliers u = Some (VNumber x).
Proof.
  intros HU. unfold Unit in HU. cbn [In] in HU.
  destruct HU as [<-|[<-|[<-|[<-|[<-|[<-|[<-|[<-|[]]]]]]]]];
    [exists y | exists mo | exists w | exists d | exists h | exists m
     | exists s | exists (number_of_Z 1)];
    intros u Hu; vm_compute in Hu;
    members Hu ltac:(subst u; vm_compute; reflexivity).
Qed.

(** Every unit token the pattern accepts is in the unit table. *)
Lemma unit_known (t : string) :
  lang unit_pattern t ->
  exists x, Object_get unitMultipliers (toLowerCase t) = Some (VNumber x).
Proof.
  intros Ht. apply unit_pattern_lang in Ht. apply in_concat in Ht.
  destruct Ht as (U & HU & Ht). destruct (unit_multiplier U HU) as [x Hx].
  exists x. now apply Hx.
Qed.

Lemma default_unit :
  Object_get unitMultipliers (toLowerCase "ms") = Some (VNumber (number_of_Z 1)).
Proof. vm_compute. reflexivity. Qed.

(** What the pattern part of [parse] does with a string that has a
    reading. *)
Lemma parse_match_parses (str : string) (groups : list (string * string)) :
  parses str groups ->
  exists x, forall pc,
    parse_match str pc
    = (Return (VNumber x), LRUCache_set str (VNumber x) pc).
Proof.
  intros Hp. pose proof Hp as He. apply exec_parses in He.
  destruct Hp as (v & sp & t & _ & _ & _ & [[_ ->] | [Ht ->]]).
  - exists (number_mul (parseFloat v) (number_of_Z 1)). intros pc.
    unfold parse_match. rewrite He.
    change (Map_get "value" [("value", v)]) with (Some v).
    change (Map_get "unit" [("value", v)]) with (@None string).
    cbv iota beta zeta. now rewrite default_unit.
  - destruct (unit_known t Ht) as [x Hx].
    exists (number_mul (parseFloat v) x). intros pc.
    unfold parse_match. rewrite He.
    change (Map_get "value" [("unit", t); ("value", v)]) with (Some v).
    change (Map_get "unit" [("unit", t); ("value", v)]) with (Some t).
    cbv iota beta zeta. now rewrite Hx.
Qed.

Lemma parse_match_reading (v sp t : string) (x : number) (pc : LRUCache) :
  lang value_pattern v -> string_forall isSpace sp = true ->
  lang unit_pattern t ->
  Object_get unitMultipliers (toLowerCase t) = Some (VNumber x) ->
  fst (parse_match (v ++ sp ++ t) pc)
  = Return (VNumber (number_mul (parseFloat v) x)).
Proof.
  intros Hv Hsp Ht Hx.
  assert (He : RegExp_exec parseRegex (v ++ sp ++ t)
               = Some [("unit", t); ("value", v)]).
  { apply exec_parses. exists v, sp, t. auto 6. }
  unfold parse_match. rewrite He.
  change (Map_get "value" [("unit", t); ("value", v)]) with (Some v).
  change (Map_get "unit" [("unit", t); ("value", v)]) with (Some t).
  cbv iota beta zeta. now rewrite Hx.
Qed.

(** [parse] never raises the unknown-unit error, whatever the cache. *)
Lemma parse_Throw (str : string) (pc : LRUCache) (e : error) :
  fst (parse str pc) = Throw e ->
  (strlen str = 0 \/ 100 < strlen str) /\ e = invalid_argument str.
Proof.
  unfold parse.
  destruct ((strlen str =? 0) || (100 <? strlen str)) eqn:Hg.
  - intros [= <-]. split; [|reflexivity].
    apply orb_true_iff in Hg. destruct Hg as [Hg | Hg].
    + left. now apply Z.eqb_eq.
    + right. now apply Z.ltb_lt.
  - destruct (LRUCache_get str pc) as [[v|] pc'].
    + discriminate.
    + destruct (Object_get commonValues str); [discriminate|].
      destruct (RegExp_exec parseRegex str) as [g|] eqn:He.
      * apply exec_parses in He.
        destruct (parse_match_parses str g He) as [x Hx].
        rewrite Hx. discriminate.
      * unfold parse_match. rewrite He. discriminate.
Qed.

(** On a string with a reading the table of common values agrees with the
    pattern and the unit table. *)
Lemma uncached_parses (str : string) (groups : list (string * string)) :
  valid_length str -> parses str groups ->
  uncached str = fst (parse_match str parseCache).
Proof.
  intros Hlen Hp. unfold uncached, parse.
  rewrite (valid_length_guard str Hlen).
  rewrite (LRUCache_get_miss str parseCache eq_refl).
  destruct (Object_get commonValues str) as [cv|] eqn:Hc; [|reflexivity].
  apply Object_get_cases in Hc. destruct Hc as [(x & Hin & ->) | [Hi _]].
  - apply commonValues_entry in Hin. simpl. symmetry. tauto.
  - apply inherited_no_match in Hi. apply exec_parses in Hp. congruence.
Qed.

Lemma spaces_isSpace (k : nat) : string_forall isSpace (spaces k) = true.
Proof. induction k as [|k IH]; [reflexivity|]. simpl. exact IH. Qed.

(* ================================================================= *)
(** ** The cache discipline *)

Lemma fill_cache_state (key : nat -> string) (v : JSValue) (n : nat) :
  cache_state (fill key v n).
Proof. induction n as [|n IH]; simpl; now constructor. Qed.

Lemma LRUCache_set_room (key : string) (v : JSValue) (c : LRUCache) :
  cache_wf c -> Map_has key (cache c) = false ->
  (Map_size (cache c) < 100)%nat ->
  cache (LRUCache_set key v c) = (cache c ++ [(key, v)])%list.
Proof.
  intros (Hmax & Hd & _) Hh Hsz. rewrite (LRUCache_set_cache key v c Hd).
  unfold kept. rewrite Hh, Hmax.
  destruct (Nat.leb_spec 100 (Map_size (cache c))); [lia | reflexivity].
Qed.

Lemma LRUCache_set_full (key : string) (v : JSValue) (c : LRUCache) :
  cache_wf c -> Map_has key (cache c) = false ->
  Map_size (cache c) = 100%nat ->
  cache (LRUCache_set key v c) = (tl (cache c) ++ [(key, v)])%list.
Proof.
  intros (Hmax & Hd & _) Hh Hsz. rewrite (LRUCache_set_cache key v c Hd).
  unfold kept. rewrite Hh, Hmax, Hsz. reflexivity.
Qed.

(** C7. The cache of capacity 100 never holds more than 100 entries,
    whatever [get]s and [set]s it has gone through. A [get] that hits
    moves the entry to the end of the order (most recently used) and
    leaves the others in place. A [set] of a new key appends it; when the
    cache is full it first drops the head of the order (least recently
    used) and nothing else. In particular, in a full cache whose two
    oldest entries are [k1] then [k2], touching [k1] and then inserting a
    new key drops [k2] and keeps [k1]. *)
Theorem LRUCache_discipline (c : LRUCache) :
  cache_state c ->
  (Map_size (cache c) <= 100)%nat
  /\ (forall key v,
         Map_get key (cache c) = Some v ->
         LRUCache_get key c
         = (Some v, with_cache c (Map_delete key (cache c) ++ [(key, v)])%list))
  /\ (forall key v,
         Map_has key (cache c) = false -> (Map_size (cache c) < 100)%nat ->
         cache (LRUCache_set key v c) = (cache c ++ [(key, v)])%list)
  /\ (forall key v,
         Map_has key (cache c) = false -> Map_size (cache c) = 100%nat ->
         cache (LRUCache_set key v c) = (tl (cache c) ++ [(key, v)])%list)
  /\ (forall k1 v1 k2 v2 others key v,
         cache c = (k1, v1) :: (k2, v2) :: others ->
         Map_size (cache c) = 100%nat ->
         Map_has key (cache c) = false ->
         cache (LRUCache_set key v (snd (LRUCache_get k1 c)))
         = (others ++ [(k1, v1); (key, v)])%list).
Proof.
  intros Hc. pose proof (cache_state_wf c Hc) as Hwf.
  pose proof Hwf as (Hmax & Hd & Hsz).
  split; [exact Hsz|].
  split; [intros key v; now apply LRUCache_get_hit|].
  split; [intros key v; now apply LRUCache_set_room|].
  split; [intros key v; now apply LRUCache_set_full|].
  intros k1 v1 k2 v2 others key v Hcache Hfull Hnew.
  assert (Hget : Map_get k1 (cache c) = Some v1)
    by (rewrite Hcache; simpl; now rewrite String.eqb_refl).
  pose proof (LRUCache_get_wf k1 c Hwf) as Hwf'.
  rewrite (LRUCache_get_hit k1 v1 c Hd Hget) in *. simpl snd in *.
  assert (Hc' : cache (with_cache c (Map_delete k1 (cache c) ++ [(k1, v1)])%list)
                = ((k2, v2) :: others ++ [(k1, v1)])%list).
  { simpl. rewrite Hcache. simpl. now rewrite String.eqb_refl. }
  rewrite LRUCache_set_full; [| exact Hwf' | | ].
  - rewrite Hc'. simpl. now rewrite <- List.app_assoc.
  - rewrite Hc'. rewrite Hcache in Hnew. simpl in Hnew.
    apply orb_false_iff in Hnew. destruct Hnew as [Hk1 Hnew].
    apply orb_false_iff in Hnew. destruct Hnew as [Hk2 Hnew].
    simpl. rewrite Hk2. simpl. apply Map_has_false_In.
    rewrite Map_keys_app, in_app_iff. simpl.
    apply Map_has_false_In in Hnew. apply String.eqb_neq in Hk1.
    intuition.
  - rewrite Hc'. rewrite Hcache in Hfull. unfold Map_size in *. simpl in *.
    rewrite List.length_app. simpl. lia.
Qed.

(** The scenario of C7 on the cache filled with the keys "0" to "99":
    after "0" is touched and "100" is inserted, "1" is gone and "0" stays. *)
Lemma LRUCache_discipline_witness :
  cache_state full_cache
  /\ Map_size
       (cache (LRUCache_set "100" (VNumber (number_of_Z 2))
                            (snd (LRUCache_get "0" full_cache)))) = 100%nat
  /\ Map_has "1"
       (cache (LRUCache_set "100" (VNumber (number_of_Z 2))
                            (snd (LRUCache_get "0" full_cache)))) = false
  /\ Map_has "0"
       (cache (LRUCache_set "100" (VNumber (number_of_Z 2))
                            (snd (LRUCache_get "0" full_cache)))) = true
  /\ Map_has "100"
       (cache (LRUCache_set "100" (VNumber (number_of_Z 2))
                            (snd (LRUCache_get "0" full_cache)))) = true.
Proof.
  split; [apply fill_cache_state|].
  destruct (LRUCache_discipline full_cache (fill_cache_state _ _ _))
    as (_ & _ & _ & _ & H).
  rewrite (H "0" (VNumber (number_of_Z 1)) "1" (VNumber (number_of_Z 1))
             (skipn 2 (cache full_cache)) "100" (VNumber (number_of_Z 2))).
  - vm_compute. repeat split; reflexivity.
  - vm_compute. reflexivity.
  - vm_compute. reflexivity.
  - vm_compute. reflexivity.
Defined.

(* ================================================================= *)
(** ** The behaviour of [parse] *)

(** C1. In every state of the cache that calls of [parse] can lead to,
    [parse] returns 1000 for "1s", 3600000 for "1h", 5400000 for "1.5h",
    1800000 for ".5h" and -3600000 for "-1h". *)
Theorem parse_literals (pc : LRUCache) :
  reachable pc ->
  fst (parse "1s" pc) = Return (VNumber (number_of_Z 1000))
  /\ fst (parse "1h" pc) = Return (VNumber (number_of_Z 3600000))
  /\ fst (parse "1.5h" pc) = Return (VNumber (number_of_Z 5400000))
  /\ fst (parse ".5h" pc) = Return (VNumber (number_of_Z 1800000))
  /\ fst (parse "-1h" pc) = Return (VNumber (number_of_Z (-3600000))).
Proof.
  intros Hr. rewrite !(parse_reachable _ pc Hr).
  repeat split; vm_compute; reflexivity.
Qed.

Lemma parse_literals_witness :
  reachable (snd (parse "1h" parseCache))
  /\ fst (parse "1.5h" (snd (parse "1h" parseCache)))
     = Return (VNumber (number_of_Z 5400000)).
Proof.
  split.
  - apply reach_parse, reach_init.
  - apply (parse_literals (snd (parse "1h" parseCache))).
    apply reach_parse, reach_init.
Defined.

(** [parse] raises exactly on the empty string and on strings of more than
    100 characters, and then with the invalid-argument error. *)
Lemma parse_raises_iff (str : string) (pc : LRUCache) :
  (exists e, fst (parse str pc) = Throw e)
  <-> strlen str = 0 \/ 100 < strlen str.
Proof.
  split.
  - intros [e He]. now apply parse_Throw in He.
  - intros Hlen. exists (invalid_argument str). rewrite parse_guard; [reflexivity|].
    apply orb_true_iff. destruct Hlen as [Hlen | Hlen].
    + left. now apply Z.eqb_eq.
    + right. now apply Z.ltb_lt.
Qed.

(** C2. A string of 100 characters is not rejected: for "1" followed by 99
    zeros [parse] returns the number 1e99, although the error message of
    the guard gives the valid lengths as 1 to 99. One more zero, or no
    character at all, and the guard raises. *)
Theorem parse_accepts_length_100 :
  strlen (String "1" (zeros 99)) = 100
  /\ fst (parse (String "1" (zeros 99)) parseCache)
     = Return (VNumber (number_of_decimal false 1 99))
  /\ fst (parse (String "1" (zeros 100)) parseCache)
     = Throw (invalid_argument (String "1" (zeros 100)))
  /\ fst (parse "" parseCache) = Throw (invalid_argument "").
Proof. repeat split; vm_compute; reflexivity. Qed.

(** C3 as the specification words it fails on its last scenario: 3599999
    is below the hour threshold. *)
Lemma format_3599999_not_hour :
  format (number_of_Z 3599999) (Some {| long := Some true |})
  <> Return "1 hour".
Proof. vm_compute. discriminate. Qed.

(** C3. [format 3600000] is "1h"; with [long] set, 3600000 gives "1 hour",
    5400000 gives "2 hours" and 3599999, which is below the hour
    threshold, gives "60 minutes". *)
Theorem format_scenarios :
  format (number_of_Z 3600000) None = Return "1h"
  /\ format (number_of_Z 3600000) (Some {| long := Some true |})
     = Return "1 hour"
  /\ format (number_of_Z 5400000) (Some {| long := Some true |})
     = Return "2 hours"
  /\ format (number_of_Z 3599999) (Some {| long := Some true |})
     = Return "60 minutes".
Proof. repeat split; vm_compute; reflexivity. Qed.

(** C4 as the specification words it fails: [parse "5xyz"] raises
    nothing. *)
Lemma parse_5xyz_no_error :
  ~ exists e, fst (parse "5xyz" parseCache) = Throw e.
Proof. intros [e He]. vm_compute in He. discriminate. Qed.

(** C4. "xyz" is not a unit of the pattern, so "5xyz" has no match:
    in every reachable state of the cache [parse "5xyz"] returns [NaN] and
    leaves the cache as it is. The unknown-unit error is never raised, for
    any input: every unit the pattern accepts is in the unit table. *)
Theorem parse_5xyz (pc : LRUCache) :
  reachable pc ->
  parse "5xyz" pc = (Return (VNumber NaN), pc)
  /\ (forall t, lang unit_pattern t ->
        exists x, Object_get unitMultipliers (toLowerCase t)
                  = Some (VNumber x))
  /\ (forall str matchUnit,
        fst (parse str pc) <> Throw (unknown_unit matchUnit str)).
Proof.
  intros Hr. split; [|split].
  - destruct (reachable_inv pc Hr) as [_ Hs].
    destruct (parse_cases "5xyz" pc Hs) as [[_ ->] | (v & He & _)].
    + reflexivity.
    + vm_compute in He. discriminate.
  - exact unit_known.
  - intros str matchUnit He. apply parse_Throw in He.
    destruct He as [_ He]. unfold unknown_unit, invalid_argument in He.
    injection He as He. vm_compute in He. discriminate.
Qed.

Lemma parse_5xyz_witness :
  reachable (snd (parse "5 hrs" parseCache))
  /\ parse "5xyz" (snd (parse "5 hrs" parseCache))
     = (Return (VNumber NaN), snd (parse "5 hrs" parseCache)).
Proof.
  split.
  - apply reach_parse, reach_init.
  - apply (parse_5xyz (snd (parse "5 hrs" parseCache))).
    apply reach_parse, reach_init.
Defined.

(** Away from the property names of [Object.prototype], a string of valid
    length without a match gets [NaN], and the cache is left as it is. *)
Lemma parse_unparseable (str : string) (pc : LRUCache) :
  reachable pc -> valid_length str ->
  RegExp_exec parseRegex str = None -> inherited str = false ->
  parse str pc = (Return (VNumber NaN), pc).
Proof.
  intros Hr Hlen He Hi.
  assert (H0 : parse str parseCache = (Return (VNumber NaN), parseCache)).
  { unfold parse. rewrite (valid_length_guard str Hlen).
    rewrite (LRUCache_get_miss str parseCache eq_refl).
    destruct (Object_get commonValues str) as [cv|] eqn:Hc.
    - apply Object_get_cases in Hc.
      destruct Hc as [(x & Hin & _) | [Hi' _]]; [|congruence].
      apply commonValues_entry in Hin. tauto.
    - unfold parse_match. now rewrite He. }
  destruct (reachable_inv pc Hr) as [_ Hs].
  destruct (parse_cases str pc Hs) as [[H1 ->] | (v & H1 & _)].
  - unfold uncached. now rewrite H0.
  - rewrite H0 in H1. discriminate.
Qed.

(** Away from those property names, the cache and the table of common
    values never change what the pattern and the unit table compute. *)
Lemma parse_agrees_with_pattern (str : string) (pc : LRUCache) :
  reachable pc -> valid_length str -> inherited str = false ->
  fst (parse str pc) = fst (parse_match str pc).
Proof.
  intros Hr Hlen Hi. rewrite (parse_reachable str pc Hr).
  rewrite (parse_match_fst str pc parseCache). unfold uncached, parse.
  rewrite (valid_length_guard str Hlen).
  rewrite (LRUCache_get_miss str parseCache eq_refl).
  destruct (Object_get commonValues str) as [cv|] eqn:Hc; [|reflexivity].
  apply Object_get_cases in Hc.
  destruct Hc as [(x & Hin & ->) | [Hi' _]]; [|congruence].
  apply commonValues_entry in Hin. simpl. symmetry. tauto.
Qed.

(** C5. "constructor" has a valid length and no match, and yet
    [parse "constructor"] does not return [NaN]: the lookup in
    [commonValues] finds the property of that name that the object literal
    inherits, and [parse] returns that built-in. *)
Theorem parse_constructor :
  valid_length "constructor"
  /\ RegExp_exec parseRegex "constructor" = None
  /\ fst (parse "constructor" parseCache) = Return (VBuiltin "constructor")
  /\ fst (parse "constructor" parseCache) <> Return (VNumber NaN).
Proof.
  split; [vm_compute; split; discriminate|].
  split; [vm_compute; reflexivity|].
  split; [vm_compute; reflexivity | vm_compute; discriminate].
Qed.

(** C10. On "constructor", of valid length and without a match, [parse]
    changes the cache: the inherited built-in is stored under the input, so
    the cache holds an entry that is no millisecond value, and a second
    call is a hit on it. *)
Theorem parse_constructor_cached :
  RegExp_exec parseRegex "constructor" = None
  /\ snd (parse "constructor" parseCache)
     = {| cache := [("constructor", VBuiltin "constructor")];
          maxSize := 100 |}
  /\ snd (parse "constructor" parseCache) <> parseCache
  /\ fst (parse "constructor" (snd (parse "constructor" parseCache)))
     = Return (VBuiltin "constructor").
Proof.
  split; [vm_compute; reflexivity|].
  split; [vm_compute; reflexivity|].
  split; [vm_compute; discriminate | vm_compute; reflexivity].
Qed.

(** C6 as the specification words it fails: the first [parse "1s"] puts
    "1s" into the cache. *)
Lemma parse_common_changes_cache :
  snd (parse "1s" parseCache) <> parseCache.
Proof. vm_compute. discriminate. Qed.

(** C6. For an input that is a key of [commonValues], [parse] looks in the
    cache first. In every reachable state of the cache it returns the
    table's value, and the cache afterwards is the cache after
    [set(input, value)]: the entry is the most recently used one, put there
    from the table on a miss and moved there on a hit, and the capacity of
    100 is kept. *)
Theorem parse_common (pc : LRUCache) (key : string) (x : number) :
  reachable pc -> In (key, x) commonValues ->
  parse key pc = (Return (VNumber x), LRUCache_set key (VNumber x) pc)
  /\ (exists older,
        cache (snd (parse key pc)) = (older ++ [(key, VNumber x)])%list
        /\ forall k v, Map_get k older = Some v ->
                       Map_get k (cache pc) = Some v)
  /\ (Map_size (cache (snd (parse key pc))) <= 100)%nat.
Proof.
  intros Hr Hin. destruct (reachable_inv pc Hr) as [Hwf Hs].
  destruct (commonValues_entry key x Hin) as (Hlen & Hget & _).
  assert (H0 : parse key parseCache
               = (Return (VNumber x), LRUCache_set key (VNumber x) parseCache)).
  { unfold parse. rewrite (valid_length_guard key Hlen).
    now rewrite (LRUCache_get_miss key parseCache eq_refl), Hget. }
  assert (H1 : parse key pc
               = (Return (VNumber x), LRUCache_set key (VNumber x) pc)).
  { destruct (parse_cases key pc Hs) as [[E _] | (v & E & ->)].
    - rewrite H0 in E. discriminate.
    - rewrite H0 in E. now injection E as <-. }
  split; [exact H1|]. rewrite H1. simpl snd.
  pose proof Hwf as (_ & Hd & _). split.
  - exists (kept key pc). split; [now apply LRUCache_set_cache|].
    intros k v. now apply kept_get.
  - now apply LRUCache_set_wf.
Qed.

Lemma parse_common_witness :
  reachable (snd (parse "1s" parseCache))
  /\ In ("1s", number_of_Z 1000) commonValues
  /\ parse "1s" (snd (parse "1s" parseCache))
     = (Return (VNumber (number_of_Z 1000)),
        LRUCache_set "1s" (VNumber (number_of_Z 1000))
                     (snd (parse "1s" parseCache))).
Proof.
  split; [apply reach_parse, reach_init|].
  split; [now left|].
  apply (parse_common (snd (parse "1s" parseCache)) "1s" (number_of_Z 1000)).
  - apply reach_parse, reach_init.
  - now left.
Defined.

(** C8. Whatever calls of [parse] came before, [parse str] gives the same
    answer: two reachable states of the cache never tell apart. For a
    valid input, a string of valid length that the pattern matches, that
    answer is the one the pattern and the unit table compute: neither the
    cache nor the table of common values changes it. And every entry of
    [commonValues] holds the value that the pattern and the unit table
    compute for its key. *)
Theorem parse_idempotent (str : string) (pc1 pc2 : LRUCache) :
  reachable pc1 -> reachable pc2 ->
  fst (parse str pc1) = fst (parse str pc2)
  /\ (valid_length str -> RegExp_exec parseRegex str <> None ->
      fst (parse str pc1) = fst (parse_match str pc1)
      /\ fst (parse str pc2) = fst (parse_match str pc1))
  /\ (forall key x,
        In (key, x) commonValues ->
        fst (parse_match key pc1) = Return (VNumber x)).
Proof.
  intros H1 H2.
  assert (Hsame : fst (parse str pc1) = fst (parse str pc2))
    by now rewrite (parse_reachable str pc1 H1), (parse_reachable str pc2 H2).
  split; [exact Hsame|]. split.
  - intros Hlen He.
    assert (Hi : inherited str = false).
    { destruct (inherited str) eqn:Hi; [|reflexivity].
      apply inherited_no_match in Hi. congruence. }
    rewrite <- Hsame.
    split; now apply parse_agrees_with_pattern.
  - intros key x Hin. rewrite (parse_match_fst key pc1 parseCache).
    now apply commonValues_entry.
Qed.

Lemma parse_idempotent_witness :
  reachable (snd (parse "90 mins" parseCache))
  /\ reachable (snd (parse "90 mins" (snd (parse "2h" parseCache))))
  /\ valid_length "90 mins"
  /\ RegExp_exec parseRegex "90 mins" <> None
  /\ fst (parse "90 mins" (snd (parse "90 mins" parseCache)))
     = fst (parse "90 mins" (snd (parse "90 mins" (snd (parse "2h" parseCache)))))
  /\ fst (parse "90 mins" (snd (parse "90 mins" parseCache)))
     = fst (parse_match "90 mins" (snd (parse "90 mins" parseCache)))
  /\ fst (parse "90 mins" (snd (parse "90 mins" (snd (parse "2h" parseCache)))))
     = fst (parse_match "90 mins" (snd (parse "90 mins" parseCache))).
Proof.
  assert (R1 : reachable (snd (parse "90 mins" parseCache)))
    by apply reach_parse, reach_init.
  assert (R2 : reachable (snd (parse "90 mins" (snd (parse "2h" parseCache)))))
    by apply reach_parse, reach_parse, reach_init.
  assert (L : valid_length "90 mins") by (vm_compute; split; discriminate).
  assert (M : RegExp_exec parseRegex "90 mins" <> None)
    by (vm_compute; discriminate).
  repeat (split; [assumption|]).
  destruct (parse_idempotent "90 mins" _ _ R1 R2) as (Hsame & Hpath & _).
  split; [exact Hsame|]. exact (Hpath L M).
Defined.

(** C9. Take a magnitude [v], two spellings [u1] and [u2] of one unit in any
    mix of upper and lower case, and any numbers of spaces between magnitude
    and unit. If both strings have a valid length, [parse] returns the same
    number for both, in whatever reachable states of the cache: the
    magnitude times the multiplier of the unit. *)
Theorem parse_unit_spellings
        (v u1 u2 : string) (k1 k2 : nat) (U : list string)
        (pc1 pc2 : LRUCache) :
  is_magnitude v = true ->
  In U Unit -> In (toLowerCase u1) U -> In (toLowerCase u2) U ->
  valid_length (v ++ spaces k1 ++ u1) ->
  valid_length (v ++ spaces k2 ++ u2) ->
  reachable pc1 -> reachable pc2 ->
  exists x,
    Object_get unitMultipliers (toLowerCase u1) = Some (VNumber x)
    /\ Object_get unitMultipliers (toLowerCase u2) = Some (VNumber x)
    /\ fst (parse (v ++ spaces k1 ++ u1) pc1)
       = Return (VNumber (number_mul (parseFloat v) x))
    /\ fst (parse (v ++ spaces k2 ++ u2) pc2)
       = Return (VNumber (number_mul (parseFloat v) x)).
Proof.
  intros Hv HU Hu1 Hu2 Hlen1 Hlen2 Hr1 Hr2.
  apply is_magnitude_lang in Hv.
  destruct (unit_multiplier U HU) as [x Hx]. exists x.
  assert (Hl : forall u, In (toLowerCase u) U -> lang unit_pattern u).
  { intros u Hu. apply unit_pattern_lang, in_concat. eauto. }
  assert (Hp : forall u k pc,
             In (toLowerCase u) U -> valid_length (v ++ spaces k ++ u) ->
             reachable pc ->
             fst (parse (v ++ spaces k ++ u) pc)
             = Return (VNumber (number_mul (parseFloat v) x))).
  { intros u k pc Hu Hlen Hr. rewrite (parse_reachable _ pc Hr).
    rewrite (uncached_parses _ [("unit", u); ("value", v)] Hlen).
    - apply parse_match_reading; auto using spaces_isSpace.
    - exists v, (spaces k), u. auto 8 using spaces_isSpace. }
  auto.
Qed.

Lemma parse_unit_spellings_witness :
  is_magnitude "2" = true
  /\ In Hours Unit
  /\ In (toLowerCase "h") Hours /\ In (toLowerCase "HOURS") Hours
  /\ valid_length ("2" ++ spaces 0 ++ "h")
  /\ valid_length ("2" ++ spaces 1 ++ "HOURS")
  /\ reachable parseCache
  /\ reachable (snd (parse "2hours" parseCache))
  /\ exists x,
      Object_get unitMultipliers (toLowerCase "h") = Some (VNumber x)
      /\ Object_get unitMultipliers (toLowerCase "HOURS") = Some (VNumber x)
      /\ fst (parse ("2" ++ spaces 0 ++ "h") parseCache)
         = Return (VNumber (number_mul (parseFloat "2") x))
      /\ fst (parse ("2" ++ spaces 1 ++ "HOURS")
                    (snd (parse "2hours" parseCache)))
         = Return (VNumber (number_mul (parseFloat "2") x)).
Proof.
  assert (Hm : is_magnitude "2" = true) by (vm_compute; reflexivity).
  assert (HU : In Hours Unit) by (vm_compute; tauto).
  assert (H1 : In (toLowerCase "h") Hours) by (vm_compute; tauto).
  assert (H2 : In (toLowerCase "HOURS") Hours) by (vm_compute; tauto).
  assert (L1 : valid_length ("2" ++ spaces 0 ++ "h"))
    by (vm_compute; split; discriminate).
  assert (L2 : valid_length ("2" ++ spaces 1 ++ "HOURS"))
    by (vm_compute; split; discriminate).
  assert (R2 : reachable (snd (parse "2hours" parseCache)))
    by apply reach_parse, reach_init.
  repeat (split; [assumption || apply reach_init|]).
  exact (parse_unit_spellings "2" "h" "HOURS" 0 1 Hours parseCache
           (snd (parse "2hours" parseCache)) Hm HU H1 H2 L1 L2 reach_init R2).
Defined.

(* ================================================================= *)
(** ** More on [LRUCache] *)

Lemma Map_get_fresh {V : Type} (key : string) (mp : Map V) :
  ~ In key (Map_keys mp) -> Map_get key mp = None.
Proof.
  intros Hn. apply Map_has_false_In in Hn. rewrite Map_has_get in Hn.
  destruct (Map_get key mp); [discriminate | reflexivity].
Qed.

Lemma Map_delete_fresh {V : Type} (key : string) (mp : Map V) :
  ~ In key (Map_keys mp) -> Map_delete key mp = mp.
Proof.
  induction mp as [|[k x] mp IH]; simpl; intros Hn; [reflexivity|].
  destruct (String.eqb k key) eqn:E.
  - apply String.eqb_eq in E. tauto.
  - rewrite IH; tauto.
Qed.

Lemma Map_delete_last {V : Type} (key : string) (v : V) (mp : Map V) :
  ~ In key (Map_keys mp) -> Map_delete key (mp ++ [(key, v)])%list = mp.
Proof.
  induction mp as [|[k x] mp IH]; simpl; intros Hn.
  - now rewrite String.eqb_refl.
  - destruct (String.eqb k key) eqn:E.
    + apply String.eqb_eq in E. tauto.
    + rewrite IH; tauto.
Qed.

Lemma Map_get_last {V : Type} (key k : string) (v : V) (mp : Map V) :
  Map_get k (mp ++ [(key, v)])%list =
  match Map_get k mp with
  | Some x => Some x
  | None => if String.eqb key k then Some v else None
  end.
Proof. now rewrite Map_get_app. Qed.

Lemma with_cache_same (c : LRUCache) : with_cache c (cache c) = c.
Proof. now destruct c. Qed.

(** The invariant of a cache of capacity [n]: no key twice, and at most [n]
    entries, or one entry when [n] is 0. *)
Lemma lru_state_inv (n : nat) (c : LRUCache) :
  lru_state n c ->
  maxSize c = n /\ NoDup (Map_keys (cache c))
  /\ (Map_size (cache c) <= Nat.max n 1)%nat.
Proof.
  induction 1 as [|key c Hc (Hmax & Hd & Hsz)|key v c Hc (Hmax & Hd & Hsz)].
  - simpl. repeat split; [constructor | lia].
  - destruct (Map_get key (cache c)) as [v|] eqn:Hget.
    + rewrite (LRUCache_get_hit key v c Hd Hget). simpl.
      split; [exact Hmax|]. split; [now apply Map_reinsert_NoDup|].
      unfold Map_size in *. rewrite List.length_app. simpl.
      assert (Hh : Map_has key (cache c) = true)
        by (rewrite Map_has_get, Hget; reflexivity).
      pose proof (Map_size_delete key (cache c) Hh) as Hs.
      unfold Map_size in Hs. lia.
    + rewrite (LRUCache_get_miss key c Hget). auto.
  - rewrite (LRUCache_set_cache key v c Hd).
    destruct (kept_NoDup key c Hd) as [Hk Hn].
    split; [exact Hmax|]. split.
    + rewrite Map_keys_app. simpl. now apply NoDup_snoc.
    + unfold Map_size in *. rewrite List.length_app. simpl.
      unfold kept. destruct (Map_has key (cache c)) eqn:Hh.
      * pose proof (Map_size_delete key (cache c) Hh) as Hs.
        unfold Map_size in Hs. lia.
      * rewrite Hmax. unfold Map_size.
        destruct (Nat.leb_spec n (Datatypes.length (cache c))) as [Hfull|Hroom].
        -- destruct (cache c) as [|[k0 v0] mp];
             cbn [tl Datatypes.length] in *; lia.
        -- lia.
Qed.

(** X1. A cache built with any capacity [n] of at least 1 never holds more
    than [n] entries and never holds a key twice, whatever [get]s and
    [set]s it has gone through; a cache of capacity 0 holds at most one
    entry. *)
Theorem LRUCache_capacity (n : nat) (c : LRUCache) :
  lru_state n c ->
  NoDup (Map_keys (cache c))
  /\ (Map_size (cache c) <= Nat.max n 1)%nat
  /\ ((1 <= n)%nat -> (Map_size (cache c) <= maxSize c)%nat).
Proof.
  intros Hc. destruct (lru_state_inv n c Hc) as (Hmax & Hd & Hsz).
  repeat split; [assumption | assumption |]. intros Hn. lia.
Qed.

Lemma LRUCache_capacity_witness :
  lru_state 2 (LRUCache_set "c" (VNumber (number_of_Z 3))
                 (LRUCache_set "b" (VNumber (number_of_Z 2))
                    (LRUCache_set "a" (VNumber (number_of_Z 1))
                       (new_LRUCache 2))))
  /\ (Map_size (cache (LRUCache_set "c" (VNumber (number_of_Z 3))
                 (LRUCache_set "b" (VNumber (number_of_Z 2))
                    (LRUCache_set "a" (VNumber (number_of_Z 1))
                       (new_LRUCache 2))))) <= Nat.max 2 1)%nat.
Proof.
  assert (H : lru_state 2 (LRUCache_set "c" (VNumber (number_of_Z 3))
                 (LRUCache_set "b" (VNumber (number_of_Z 2))
                    (LRUCache_set "a" (VNumber (number_of_Z 1))
                       (new_LRUCache 2)))))
    by (do 3 apply lru_set; apply lru_new).
  split; [exact H|].
  exact (proj1 (proj2 (LRUCache_capacity 2 _ H))).
Defined.

(** X2. What has just been set is what the next [get] of that key returns,
    and that [get] leaves the cache as it is: the key is already the most
    recently used one. *)
Theorem LRUCache_get_after_set (n : nat) (c : LRUCache) (key : string)
        (v : JSValue) :
  lru_state n c ->
  LRUCache_get key (LRUCache_set key v c) = (Some v, LRUCache_set key v c).
Proof.
  intros Hc. destruct (lru_state_inv n c Hc) as (_ & Hd & _).
  destruct (kept_NoDup key c Hd) as [_ Hn].
  assert (Hcache : cache (LRUCache_set key v c)
                   = (kept key c ++ [(key, v)])%list)
    by now apply LRUCache_set_cache.
  unfold LRUCache_get. rewrite Hcache, Map_get_last.
  rewrite (Map_get_fresh key _ Hn), String.eqb_refl.
  rewrite (Map_delete_last key v _ Hn).
  rewrite Map_set_fresh by now apply Map_has_false_In.
  rewrite <- Hcache. now rewrite with_cache_same.
Qed.

Lemma LRUCache_get_after_set_witness :
  lru_state 100 full_cache
  /\ LRUCache_get "7" (LRUCache_set "7" (VNumber (number_of_Z 5)) full_cache)
     = (Some (VNumber (number_of_Z 5)),
        LRUCache_set "7" (VNumber (number_of_Z 5)) full_cache).
Proof.
  assert (H : lru_state 100 full_cache).
  { unfold full_cache. generalize 100%nat at 2. intros k.
    induction k as [|k IH]; simpl; now constructor. }
  split; [exact H|].
  exact (LRUCache_get_after_set 100 full_cache "7" (VNumber (number_of_Z 5)) H).
Defined.

(** X3. A [get] changes no content: afterwards every key is bound as it was
    before and the size is the same; it returns the binding of its key, and
    on a miss the cache is left untouched, order included. *)
Theorem LRUCache_get_keeps_content (n : nat) (c : LRUCache) (key : string) :
  lru_state n c ->
  fst (LRUCache_get key c) = Map_get key (cache c)
  /\ (forall k,
        Map_get k (cache (snd (LRUCache_get key c))) = Map_get k (cache c))
  /\ Map_size (cache (snd (LRUCache_get key c))) = Map_size (cache c)
  /\ (Map_get key (cache c) = None -> snd (LRUCache_get key c) = c).
Proof.
  intros Hc. destruct (lru_state_inv n c Hc) as (_ & Hd & _).
  destruct (Map_get key (cache c)) as [v|] eqn:Hget.
  - rewrite (LRUCache_get_hit key v c Hd Hget). simpl.
    split; [reflexivity|]. split; [|split; [|discriminate]].
    + intros k. rewrite Map_get_last.
      destruct (String.eqb key k) eqn:E.
      * apply String.eqb_eq in E. subst k.
        rewrite Map_get_fresh; [now rewrite Hget|].
        apply Map_has_false_In. now apply Map_delete_has.
      * rewrite Map_get_delete_other.
        -- now destruct (Map_get k (cache c)).
        -- intros ->. rewrite String.eqb_refl in E. discriminate.
    + unfold Map_size. rewrite List.length_app. simpl.
      assert (Hh : Map_has key (cache c) = true)
        by (rewrite Map_has_get, Hget; reflexivity).
      pose proof (Map_size_delete key (cache c) Hh) as Hs.
      unfold Map_size in Hs. lia.
  - rewrite (LRUCache_get_miss key c Hget). simpl. auto.
Qed.

Lemma LRUCache_get_keeps_content_witness :
  lru_state 100 (LRUCache_set "b" (VNumber (number_of_Z 2))
                   (LRUCache_set "a" (VNumber (number_of_Z 1))
                      (new_LRUCache 100)))
  /\ Map_size (cache (snd (LRUCache_get "a"
                (LRUCache_set "b" (VNumber (number_of_Z 2))
                   (LRUCache_set "a" (VNumber (number_of_Z 1))
                      (new_LRUCache 100))))))
     = Map_size (cache (LRUCache_set "b" (VNumber (number_of_Z 2))
                   (LRUCache_set "a" (VNumber (number_of_Z 1))
                      (new_LRUCache 100)))).
Proof.
  assert (H : lru_state 100 (LRUCache_set "b" (VNumber (number_of_Z 2))
                   (LRUCache_set "a" (VNumber (number_of_Z 1))
                      (new_LRUCache 100))))
    by (do 2 apply lru_set; apply lru_new).
  split; [exact H|].
  exact (proj1 (proj2 (proj2 (LRUCache_get_keeps_content 100 _ "a" H)))).
Defined.

(** X4. A [set] binds its key to the new value and loses at most one other
    entry: a key bound before is bound to the same value afterwards, unless
    it was the oldest key of a cache that was full and did not hold the
    key being set. In particular, setting a key that is already present
    changes no other binding and no size. *)
Theorem LRUCache_set_effect (n : nat) (c : LRUCache) (key : string)
        (v : JSValue) :
  lru_state n c ->
  Map_get key (cache (LRUCache_set key v c)) = Some v
  /\ (forall k x,
        k <> key -> Map_get k (cache c) = Some x ->
        Map_get k (cache (LRUCache_set key v c)) = Some x
        \/ (Map_get k (cache (LRUCache_set key v c)) = None
            /\ Map_first_key (cache c) = Some k
            /\ Map_has key (cache c) = false
            /\ (n <= Map_size (cache c))%nat))
  /\ (forall k, k <> key -> Map_get k (cache c) = None ->
                Map_get k (cache (LRUCache_set key v c)) = None)
  /\ (Map_has key (cache c) = true ->
      Map_size (cache (LRUCache_set key v c)) = Map_size (cache c)).
Proof.
  intros Hc. destruct (lru_state_inv n c Hc) as (Hmax & Hd & _).
  destruct (kept_NoDup key c Hd) as [_ Hn].
  rewrite (LRUCache_set_cache key v c Hd).
  assert (Hother : forall k, k <> key ->
            Map_get k (kept key c ++ [(key, v)])%list = Map_get k (kept key c)).
  { intros k Hne. rewrite Map_get_last.
    destruct (Map_get k (kept key c)); [reflexivity|].
    destruct (String.eqb key k) eqn:E; [|reflexivity].
    apply String.eqb_eq in E. congruence. }
  split; [|split; [|split]].
  - rewrite Map_get_last, (Map_get_fresh key _ Hn). now rewrite String.eqb_refl.
  - intros k x Hne Hget. rewrite (Hother k Hne). unfold kept.
    destruct (Map_has key (cache c)) eqn:Hh.
    + left. now rewrite Map_get_delete_other.
    + rewrite Hmax.
      destruct (Nat.leb_spec n (Map_size (cache c))) as [Hfull|Hroom];
        [|now left].
      destruct (cache c) as [|[k0 v0] mp] eqn:Hcache; [discriminate|].
      simpl in *. destruct (String.eqb k0 k) eqn:E.
      * apply String.eqb_eq in E. subst k0. right.
        inversion Hd as [|? ? Hnin Hd']; subst.
        rewrite (Map_get_fresh k mp Hnin). auto.
      * now left.
  - intros k Hne Hget. rewrite (Hother k Hne).
    destruct (Map_get k (kept key c)) as [x|] eqn:Hk; [|reflexivity].
    apply (kept_get key k x c Hd) in Hk. congruence.
  - intros Hh. unfold kept. rewrite Hh. unfold Map_size.
    rewrite List.length_app. simpl.
    pose proof (Map_size_delete key (cache c) Hh) as Hs.
    unfold Map_size in Hs. lia.
Qed.

Lemma LRUCache_set_effect_witness :
  lru_state 1 (LRUCache_set "a" (VNumber (number_of_Z 1)) (new_LRUCache 1))
  /\ Map_get "b" (cache (LRUCache_set "b" (VNumber (number_of_Z 2))
                   (LRUCache_set "a" (VNumber (number_of_Z 1))
                      (new_LRUCache 1))))
     = Some (VNumber (number_of_Z 2)).
Proof.
  assert (H : lru_state 1 (LRUCache_set "a" (VNumber (number_of_Z 1))
                                        (new_LRUCache 1)))
    by (apply lru_set, lru_new).
  split; [exact H|].
  exact (proj1 (LRUCache_set_effect 1 _ "b" (VNumber (number_of_Z 2)) H)).
Defined.

(* ================================================================= *)
(** ** The grammar spelled out *)

Lemma isSpace_eq (a : ascii) : isSpace a = true -> a = " "%char.
Proof.
  assert (H : forallb (fun a => implb (isSpace a) (Ascii.eqb a " "))
                      all_ascii = true) by (vm_compute; reflexivity).
  intros Ha. generalize (forall_ascii _ H a). rewrite Ha. simpl.
  apply Ascii.eqb_eq.
Qed.

Lemma minus_eq (a : ascii) : atom_matches (Lit "-") a = true -> a = "-"%char.
Proof.
  assert (H : forallb (fun a => implb (atom_matches (Lit "-") a)
                                      (Ascii.eqb a "-"))
                      all_ascii = true) by (vm_compute; reflexivity).
  intros Ha. generalize (forall_ascii _ H a). rewrite Ha. simpl.
  apply Ascii.eqb_eq.
Qed.

Lemma point_eq (a : ascii) : atom_matches (Lit ".") a = true -> a = "."%char.
Proof.
  assert (H : forallb (fun a => implb (atom_matches (Lit ".") a)
                                      (Ascii.eqb a "."))
                      all_ascii = true) by (vm_compute; reflexivity).
  intros Ha. generalize (forall_ascii _ H a). rewrite Ha. simpl.
  apply Ascii.eqb_eq.
Qed.

Lemma isSpace_spaces (sp : string) :
  string_forall isSpace sp = true <-> exists k, sp = spaces k.
Proof.
  split.
  - induction sp as [|a sp IH]; cbn [string_forall].
    + intros _. now exists O.
    + rewrite andb_true_iff. intros [Ha Hsp]. apply isSpace_eq in Ha.
      destruct (IH Hsp) as [k ->]. exists (S k). now subst a.
  - intros [k ->]. apply spaces_isSpace.
Qed.

(** The numeric part of the pattern: an optional minus, digits, an optional
    point, at least one digit. *)
Lemma value_pattern_parts (v : string) :
  lang value_pattern v <->
  exists sign ip dot fp,
    v = sign ++ ip ++ dot ++ fp /\ magnitude_parts sign ip dot fp.
Proof.
  unfold magnitude_parts. cbn [lang value_pattern]. split.
  - intros (sign & u2 & -> & Hsign & ip & u4 & -> & Hip & dot & fp & -> & Hdot
            & Hne & Hfp).
    exists sign, ip, dot, fp. split; [reflexivity|].
    repeat split; try assumption.
    + destruct Hsign as [-> | (a & -> & Ha)]; [now left|].
      apply minus_eq in Ha. subst a. now right.
    + destruct Hdot as [-> | (a & -> & Ha)]; [now left|].
      apply point_eq in Ha. subst a. now right.
  - intros (sign & ip & dot & fp & -> & Hsign & Hip & Hdot & Hfp & Hne).
    exists sign, (ip ++ dot ++ fp). split; [reflexivity|]. split.
    { destruct Hsign as [-> | ->]; [now left|]. right.
      exists "-"%char. split; reflexivity. }
    exists ip, (dot ++ fp). split; [reflexivity|]. split; [exact Hip|].
    exists dot, fp. split; [reflexivity|]. split; [|split; assumption].
    destruct Hdot as [-> | ->]; [now left|]. right.
    exists "."%char. split; reflexivity.
Qed.

(** X5. [parseRegex] matches exactly the strings made of a magnitude (an
    optional minus, digits, an optional point, at least one digit), any
    number of spaces, and nothing more or one of the 34 unit spellings in
    any mix of upper and lower case. The group [value] is the magnitude;
    the group [unit] is the unit as written, and is absent when there is
    none. Nothing may come before the magnitude or after the unit. *)
Theorem parseRegex_matches (str : string) (groups : list (string * string)) :
  RegExp_exec parseRegex str = Some groups <->
  exists sign ip dot fp k u,
    magnitude_parts sign ip dot fp
    /\ str = (sign ++ ip ++ dot ++ fp) ++ spaces k ++ u
    /\ ((u = "" /\ groups = [("value", sign ++ ip ++ dot ++ fp)])
        \/ (In (toLowerCase u) (List.concat Unit)
            /\ groups = [("unit", u); ("value", sign ++ ip ++ dot ++ fp)])).
Proof.
  rewrite exec_parses. unfold parses. split.
  - intros (v & sp & t & -> & Hv & Hsp & Ht).
    apply value_pattern_parts in Hv.
    destruct Hv as (sign & ip & dot & fp & -> & Hparts).
    apply isSpace_spaces in Hsp. destruct Hsp as [k ->].
    exists sign, ip, dot, fp, k, t. split; [assumption|].
    split; [reflexivity|].
    destruct Ht as [Ht | [Ht ->]]; [now left|]. right.
    split; [now apply unit_pattern_lang | reflexivity].
  - intros (sign & ip & dot & fp & k & u & Hparts & -> & Hu).
    exists (sign ++ ip ++ dot ++ fp), (spaces k), u.
    split; [reflexivity|]. split.
    { apply value_pattern_parts. exists sign, ip, dot, fp. auto. }
    split; [apply spaces_isSpace|].
    destruct Hu as [Hu | [Hu ->]]; [now left|]. right.
    split; [now apply unit_pattern_lang | reflexivity].
Qed.

(* ================================================================= *)
(** ** Numbers: what never gives [NaN], and signs *)

Lemma shr_1_nonneg (mrs : shr_record) :
  0 <= shr_m mrs -> 0 <= shr_m (shr_1 mrs).
Proof.
  destruct mrs as [mm r st]. simpl.
  destruct mm as [|p|p]; try destruct p; simpl; lia.
Qed.

Lemma iter_shr_1_nonneg (p : positive) :
  forall mrs, 0 <= shr_m mrs -> 0 <= shr_m (iter_pos shr_1 p mrs).
Proof.
  induction p as [p IH|p IH|]; intros mrs H; simpl.
  - apply IH, IH. now apply shr_1_nonneg.
  - now apply IH, IH.
  - now apply shr_1_nonneg.
Qed.

Lemma shr_fexp_nonneg (mm e : Z) (l : location) :
  0 <= mm -> 0 <= shr_m (fst (shr_fexp prec emax mm e l)).
Proof.
  intros H. unfold shr_fexp, shr.
  assert (H0 : 0 <= shr_m (shr_record_of_loc mm l))
    by (destruct l as [|[]]; simpl; assumption).
  destruct (fexp prec emax (Zdigits2 mm + e) - e) as [|p|p]; simpl;
    try assumption.
  now apply iter_shr_1_nonneg.
Qed.

Lemma round_nearest_even_nonneg (mm : Z) (l : location) :
  0 <= mm -> 0 <= round_nearest_even mm l.
Proof.
  intros H. unfold round_nearest_even.
  destruct l as [|[]]; try destruct (Z.even mm); lia.
Qed.

(** Rounding a non-negative mantissa never gives [NaN]. *)
Lemma binary_round_aux_not_nan (sx : bool) (mx ex : Z) (lx : location) :
  0 <= mx -> isNaN (binary_round_aux prec emax sx mx ex lx) = false.
Proof.
  intros H. unfold binary_round_aux.
  pose proof (shr_fexp_nonneg mx ex lx H) as H1.
  destruct (shr_fexp prec emax mx ex lx) as [mrs' e']. simpl in H1.
  pose proof (shr_fexp_nonneg _ e' loc_Exact
                (round_nearest_even_nonneg _ (loc_of_shr_record mrs') H1)) as H2.
  destruct (shr_fexp prec emax _ e' loc_Exact) as [mrs'' e'']. simpl in H2.
  destruct (shr_m mrs'') as [|p|p]; [reflexivity | | lia].
  destruct (e'' <=? emax - prec); reflexivity.
Qed.

(** The sign given to the rounding is the sign of its result. *)
Lemma binary_round_aux_opp (sx : bool) (mx ex : Z) (lx : location) :
  binary_round_aux prec emax (negb sx) mx ex lx
  = SFopp (binary_round_aux prec emax sx mx ex lx).
Proof.
  unfold binary_round_aux.
  destruct (shr_fexp prec emax mx ex lx) as [mrs' e'].
  destruct (shr_fexp prec emax _ e' loc_Exact) as [mrs'' e''].
  destruct (shr_m mrs'') as [|p|p]; try reflexivity.
  destruct (e'' <=? emax - prec); reflexivity.
Qed.

Lemma number_of_ratio_not_nan (neg : bool) (n d : Z) :
  0 <= n -> 0 < d -> isNaN (number_of_ratio neg n d) = false.
Proof.
  intros Hn Hd. unfold number_of_ratio.
  destruct n as [|n|n]; [| |lia]; destruct d as [|d|d]; try lia;
    [reflexivity|].
  unfold SFdiv_core_binary.
  set (e' := Z.min _ _). set (m' := match 0 - 0 - e' with
                                    | Z0 => Zpos n
                                    | Zpos _ => Z.shiftl (Zpos n) (0 - 0 - e')
                                    | Zneg _ => 0
                                    end).
  assert (Hm : 0 <= m').
  { unfold m'. destruct (0 - 0 - e'); try lia. now apply Z.shiftl_nonneg. }
  destruct (Z.div_eucl m' (Zpos d)) as [q r] eqn:E.
  assert (Hq : q = m' / Zpos d) by (unfold Z.div; now rewrite E).
  apply binary_round_aux_not_nan. rewrite Hq. apply Z.div_pos; lia.
Qed.

Lemma number_of_ratio_opp (n d : Z) :
  number_of_ratio true n d = SFopp (number_of_ratio false n d).
Proof.
  unfold number_of_ratio. destruct n as [|n|n], d as [|d|d]; try reflexivity.
  destruct (SFdiv_core_binary prec emax (Zpos n) 0 (Zpos d) 0) as [[mz ez] lz].
  apply (binary_round_aux_opp false).
Qed.

Lemma number_of_decimal_not_nan (neg : bool) (mant e10 : Z) :
  0 <= mant -> isNaN (number_of_decimal neg mant e10) = false.
Proof.
  intros H. unfold number_of_decimal. destruct (Z.leb_spec 0 e10).
  - apply number_of_ratio_not_nan; [|lia].
    apply Z.mul_nonneg_nonneg; [assumption|]. apply Z.pow_nonneg. lia.
  - apply number_of_ratio_not_nan; [assumption|].
    apply Z.pow_pos_nonneg; lia.
Qed.

Lemma number_of_decimal_opp (mant e10 : Z) :
  number_of_decimal true mant e10 = SFopp (number_of_decimal false mant e10).
Proof.
  unfold number_of_decimal. destruct (0 <=? e10); apply number_of_ratio_opp.
Qed.

(** A product with a finite factor is [NaN] only if the other factor is. *)
Lemma number_mul_not_nan (x : number) (sy : bool) (my : positive) (ey : Z) :
  isNaN x = false -> isNaN (number_mul x (S754_finite sy my ey)) = false.
Proof.
  destruct x as [sx|sx| |sx mx ex]; simpl; try reflexivity; try discriminate.
  intros _. apply binary_round_aux_not_nan. lia.
Qed.

Lemma number_mul_opp (x x' : number) :
  number_mul (SFopp x) x' = SFopp (number_mul x x').
Proof.
  destruct x as [sx|sx| |sx mx ex], x' as [sy|sy| |sy my ey]; simpl;
    try reflexivity; try (now destruct sx, sy).
  replace (xorb (negb sx) sy) with (negb (xorb sx sy)) by now destruct sx, sy.
  apply binary_round_aux_opp.
Qed.

(* ================================================================= *)
(** ** [parseFloat] on a magnitude *)

Lemma isDigit_code (a : ascii) : isDigit a = true -> 48 <= code a <= 57.
Proof. unfold isDigit. rewrite andb_true_iff, !Z.leb_le. tauto. Qed.

Lemma Z_of_digits_acc_nonneg (ds : string) :
  forall acc, 0 <= acc -> string_forall isDigit ds = true ->
              0 <= Z_of_digits_acc acc ds.
Proof.
  induction ds as [|a ds IH]; intros acc Hacc; cbn [string_forall Z_of_digits_acc];
    [auto|].
  rewrite andb_true_iff. intros [Ha Hds]. apply isDigit_code in Ha.
  apply IH; [lia | assumption].
Qed.

Lemma leads_facts (a : ascii) :
  leads a = true ->
  isWhiteSpace a = false /\ (isDigit a = true \/ a = "."%char).
Proof.
  assert (H : forallb (fun a => implb (leads a)
                (negb (isWhiteSpace a) && (isDigit a || Ascii.eqb a ".")))
              all_ascii = true) by (vm_compute; reflexivity).
  intros Ha. generalize (forall_ascii _ H a). rewrite Ha. simpl.
  rewrite andb_true_iff, negb_true_iff, orb_true_iff, Ascii.eqb_eq. tauto.
Qed.

Lemma leads_splitSign (a : ascii) (r : string) :
  leads a = true -> splitSign (String a r) = (false, String a r).
Proof.
  destruct a as [[] [] [] [] [] [] [] []]; intros H; try reflexivity;
    vm_compute in H; discriminate.
Qed.

Lemma leads_not_Infinity (a : ascii) (r : string) :
  leads a = true -> prefix "Infinity" (String a r) = false.
Proof.
  destruct a as [[] [] [] [] [] [] [] []]; intros H;
    try (vm_compute in H; discriminate); vm_compute; reflexivity.
Qed.

(** A magnitude without sign starts with a digit or the point. *)
Lemma unsigned_head (ip dot fp : string) :
  magnitude_parts "" ip dot fp ->
  exists a r, ip ++ dot ++ fp = String a r /\ leads a = true.
Proof.
  intros (_ & Hip & Hdot & Hfp & Hne). unfold leads.
  destruct ip as [|a ip]; cbn [append string_forall] in *.
  - destruct Hdot as [-> | ->]; cbn [append].
    + destruct fp as [|a fp]; [congruence|]. cbn [string_forall] in Hfp.
      apply andb_true_iff in Hfp. exists a, fp. now rewrite (proj1 Hfp).
    + exists "."%char, fp. split; [reflexivity|]. apply orb_true_r.
  - apply andb_true_iff in Hip. exists a, (ip ++ dot ++ fp).
    now rewrite (proj1 Hip).
Qed.

Lemma span_digits_all (ds : string) :
  string_forall isDigit ds = true -> span isDigit ds = (ds, "").
Proof.
  intros H. rewrite <- (append_nil_r ds) at 1. now apply span_append.
Qed.

(** What [parseFloat] computes once the sign has been split off. *)
Lemma parseFloat_split (neg : bool) (t ip dot fp : string) :
  magnitude_parts "" ip dot fp ->
  span isWhiteSpace t = ("", t) ->
  splitSign t = (neg, ip ++ dot ++ fp) ->
  parseFloat t = magnitude_value neg ip dot fp.
Proof.
  intros Hparts Hws Hsign.
  destruct (unsigned_head ip dot fp Hparts) as (a & r & Hu & Ha).
  destruct Hparts as (_ & Hip & Hdot & Hfp & Hne).
  unfold parseFloat, magnitude_value. rewrite Hws, Hsign.
  rewrite Hu, (leads_not_Infinity a r Ha), <- Hu.
  assert (Hds : ip ++ fp <> "") by (destruct ip, fp; cbn; congruence).
  destruct Hdot as [-> | ->]; cbn [append].
  - rewrite span_digits_all
      by (rewrite string_forall_append, Hip, Hfp; reflexivity).
    rewrite append_nil_r.
    destruct (ip ++ fp) as [|c ds]; [congruence | reflexivity].
  - rewrite (span_append isDigit ip (String "." fp) Hip eq_refl).
    rewrite (span_digits_all fp Hfp).
    destruct (ip ++ fp) as [|c ds]; [congruence | reflexivity].
Qed.

Lemma parseFloat_unsigned (ip dot fp : string) :
  magnitude_parts "" ip dot fp ->
  parseFloat (ip ++ dot ++ fp) = magnitude_value false ip dot fp.
Proof.
  intros Hparts.
  destruct (unsigned_head ip dot fp Hparts) as (a & r & Hu & Ha).
  apply parseFloat_split; [assumption| |].
  - rewrite Hu. apply (span_append isWhiteSpace "" (String a r) eq_refl).
    now apply leads_facts.
  - rewrite Hu. now apply leads_splitSign.
Qed.

Lemma parseFloat_minus (ip dot fp : string) :
  magnitude_parts "" ip dot fp ->
  parseFloat ("-" ++ ip ++ dot ++ fp) = magnitude_value true ip dot fp.
Proof.
  intros Hparts. apply parseFloat_split; [assumption | reflexivity | reflexivity].
Qed.

(** [parseFloat] on any magnitude. *)
Lemma parseFloat_magnitude (sign ip dot fp : string) :
  magnitude_parts sign ip dot fp ->
  parseFloat (sign ++ ip ++ dot ++ fp)
  = magnitude_value (match sign with "" => false | _ => true end) ip dot fp.
Proof.
  intros Hparts. pose proof Hparts as (Hsign & Hrest).
  destruct Hsign as [-> | ->].
  - exact (parseFloat_unsigned ip dot fp Hparts).
  - apply (parseFloat_minus ip dot fp). split; [now left | exact Hrest].
Qed.

Lemma magnitude_value_not_nan (neg : bool) (ip dot fp : string) :
  string_forall isDigit ip = true -> string_forall isDigit fp = true ->
  isNaN (magnitude_value neg ip dot fp) = false.
Proof.
  intros Hip Hfp. apply number_of_decimal_not_nan.
  apply Z_of_digits_acc_nonneg; [lia|].
  now rewrite string_forall_append, Hip, Hfp.
Qed.

(* ================================================================= *)
(** ** More on [parse] *)

(** Every multiplier of the unit table is a positive finite number. *)
Lemma multiplier_finite (u : string) (x : number) :
  Object_get unitMultipliers u = Some (VNumber x) ->
  exists mx ex, x = S754_finite false mx ex.
Proof.
  intros H. apply Object_get_cases in H.
  destruct H as [(x' & Hin & [= ->]) | [_ Hb]]; [|discriminate].
  vm_compute in Hin.
  members Hin ltac:(injection Hin as _ <-; eauto).
Qed.

(** The pattern part of [parse] on a string with a reading: the magnitude
    times the multiplier of the unit, 1 without a unit; never [NaN]. *)
Lemma parse_match_value (sign ip dot fp sp t : string) (x : number)
      (pc : LRUCache) :
  magnitude_parts sign ip dot fp -> string_forall isSpace sp = true ->
  (t = "" /\ x = number_of_Z 1)
  \/ (lang unit_pattern t
      /\ Object_get unitMultipliers (toLowerCase t) = Some (VNumber x)) ->
  parse_match ((sign ++ ip ++ dot ++ fp) ++ sp ++ t) pc
  = (Return (VNumber (number_mul
       (magnitude_value (match sign with "" => false | _ => true end)
                        ip dot fp) x)),
     LRUCache_set ((sign ++ ip ++ dot ++ fp) ++ sp ++ t)
       (VNumber (number_mul
          (magnitude_value (match sign with "" => false | _ => true end)
                           ip dot fp) x)) pc)
  /\ isNaN (number_mul
       (magnitude_value (match sign with "" => false | _ => true end)
                        ip dot fp) x) = false.
Proof.
  intros Hparts Hsp Ht.
  assert (Hv : lang value_pattern (sign ++ ip ++ dot ++ fp))
    by (apply value_pattern_parts; exists sign, ip, dot, fp; auto).
  rewrite <- (parseFloat_magnitude sign ip dot fp Hparts).
  assert (Hnan : isNaN (parseFloat (sign ++ ip ++ dot ++ fp)) = false).
  { rewrite (parseFloat_magnitude sign ip dot fp Hparts).
    destruct Hparts as (_ & Hip & _ & Hfp & _).
    now apply magnitude_value_not_nan. }
  set (v := sign ++ ip ++ dot ++ fp) in *.
  destruct Ht as [[-> ->] | [Ht Hx]].
  - assert (He : RegExp_exec parseRegex (v ++ sp ++ "") = Some [("value", v)]).
    { apply exec_parses. exists v, sp, "". auto 6. }
    split; [|now apply number_mul_not_nan].
    unfold parse_match. rewrite He.
    change (Map_get "value" [("value", v)]) with (Some v).
    change (Map_get "unit" [("value", v)]) with (@None string).
    cbv iota beta zeta. now rewrite default_unit.
  - assert (He : RegExp_exec parseRegex (v ++ sp ++ t)
                 = Some [("unit", t); ("value", v)]).
    { apply exec_parses. exists v, sp, t. auto 6. }
    split.
    + unfold parse_match. rewrite He.
      change (Map_get "value" [("unit", t); ("value", v)]) with (Some v).
      change (Map_get "unit" [("unit", t); ("value", v)]) with (Some t).
      cbv iota beta zeta. now rewrite Hx.
    + destruct (multiplier_finite _ x Hx) as (mx & ex & ->).
      now apply number_mul_not_nan.
Qed.

(** The pattern part of [parse] never computes [NaN]. *)
Lemma parse_match_not_nan (str : string) (groups : list (string * string)) :
  parses str groups ->
  exists x,
    (forall pc, parse_match str pc
                = (Return (VNumber x), LRUCache_set str (VNumber x) pc))
    /\ isNaN x = false.
Proof.
  intros (v & sp & t & -> & Hv & Hsp & Ht).
  apply value_pattern_parts in Hv.
  destruct Hv as (sign & ip & dot & fp & -> & Hparts).
  set (neg := match sign with "" => false | _ => true end).
  destruct Ht as [[-> _] | [Ht _]].
  - exists (number_mul (magnitude_value neg ip dot fp) (number_of_Z 1)).
    assert (H : forall pc, _ /\ _)
      by (intros pc;
          exact (parse_match_value sign ip dot fp sp "" (number_of_Z 1) pc
                   Hparts Hsp (or_introl (conj eq_refl eq_refl)))).
    split; [intros pc; apply (H pc) | apply (H parseCache)].
  - destruct (unit_known t Ht) as [x Hx].
    exists (number_mul (magnitude_value neg ip dot fp) x).
    assert (H : forall pc, _ /\ _)
      by (intros pc;
          exact (parse_match_value sign ip dot fp sp t x pc
                   Hparts Hsp (or_intror (conj Ht Hx)))).
    split; [intros pc; apply (H pc) | apply (H parseCache)].
Qed.

Lemma VNumber_not_NaN (x : number) : isNaN x = false -> VNumber x <> VNumber NaN.
Proof. intros H [= ->]. discriminate. Qed.

(** What [parse] does from the empty cache: it raises the invalid-argument
    error, or finds no match and returns [NaN], or returns a value other
    than [NaN] and caches it. *)
Lemma parse_empty_cases (str : string) :
  parse str parseCache = (Throw (invalid_argument str), parseCache)
  \/ (parse str parseCache = (Return (VNumber NaN), parseCache)
      /\ RegExp_exec parseRegex str = None)
  \/ (exists v,
        parse str parseCache = (Return v, LRUCache_set str v parseCache)
        /\ v <> VNumber NaN
        /\ (strlen str =? 0) || (100 <? strlen str) = false).
Proof.
  unfold parse.
  destruct ((strlen str =? 0) || (100 <? strlen str)) eqn:Hg; [now left|].
  right. rewrite (LRUCache_get_miss str parseCache eq_refl).
  destruct (Object_get commonValues str) as [cv|] eqn:Hc.
  - right. exists cv. split; [reflexivity|]. split; [|reflexivity].
    apply Object_get_cases in Hc.
    destruct Hc as [(x & Hin & ->) | [_ ->]]; [|discriminate].
    apply commonValues_entry in Hin. destruct Hin as (_ & _ & Hm & He).
    destruct (RegExp_exec parseRegex str) as [g|] eqn:E; [|congruence].
    apply exec_parses in E.
    destruct (parse_match_not_nan str g E) as (x' & Hx' & Hnan).
    rewrite Hx' in Hm. simpl in Hm. injection Hm as <-.
    now apply VNumber_not_NaN.
  - destruct (RegExp_exec parseRegex str) as [g|] eqn:E.
    + right. apply exec_parses in E.
      destruct (parse_match_not_nan str g E) as (x & Hx & Hnan).
      exists (VNumber x). rewrite Hx.
      split; [reflexivity|]. split; [now apply VNumber_not_NaN | reflexivity].
    + left. unfold parse_match. rewrite E. auto.
Qed.

Lemma set_changes_parseCache {A : Type} (r r' : A) (str : string)
      (v : JSValue) :
  (r, parseCache) = (r', LRUCache_set str v parseCache) -> False.
Proof.
  intros H. apply (f_equal (fun p => Map_size (cache (snd p)))) in H.
  discriminate H.
Qed.

(** X6. Whatever the cache holds, [parse] raises exactly when the string is
    empty or longer than 100 characters; the error is the invalid-argument
    error, whose message carries the JSON quotation of the input, and the
    cache is left as it was. No other input makes [parse] raise. *)
Theorem parse_error_behaviour (str : string) (pc : LRUCache) (e : error) :
  (fst (parse str pc) = Throw e <->
   (strlen str = 0 \/ 100 < strlen str)
   /\ e = Error ("Value provided to ms.parse() must be a string with length between 1 and 99. value="
                 ++ JSON_stringify str))
  /\ (fst (parse str pc) = Throw e -> snd (parse str pc) = pc).
Proof.
  change (Error _) with (invalid_argument str).
  assert (Hg : strlen str = 0 \/ 100 < strlen str ->
               (strlen str =? 0) || (100 <? strlen str) = true).
  { intros [H | H]; apply orb_true_iff;
      [left; now apply Z.eqb_eq | right; now apply Z.ltb_lt]. }
  split; [split|].
  - apply parse_Throw.
  - intros [Hlen ->]. now rewrite (parse_guard str pc (Hg Hlen)).
  - intros He. apply parse_Throw in He. destruct He as [Hlen _].
    now rewrite (parse_guard str pc (Hg Hlen)).
Qed.

(** X7. After any calls of [parse], a call [parse str] does one of three
    things: it raises the invalid-argument error and leaves the cache
    alone; or the string has no match, it returns [NaN] and leaves the
    cache alone; or it returns a value other than [NaN], and the cache
    afterwards is the cache after [set(str, value)], in which [str] is
    bound to that value. *)
Theorem parse_cache_effect (str : string) (pc : LRUCache) :
  reachable pc ->
  parse str pc = (Throw (invalid_argument str), pc)
  \/ (parse str pc = (Return (VNumber NaN), pc)
      /\ RegExp_exec parseRegex str = None)
  \/ (exists v,
        parse str pc = (Return v, LRUCache_set str v pc)
        /\ v <> VNumber NaN
        /\ Map_get str (cache (LRUCache_set str v pc)) = Some v).
Proof.
  intros Hr. destruct (reachable_inv pc Hr) as [(_ & Hd & _) Hs].
  destruct (parse_cases str pc Hs) as [[E0 E] | (v & E0 & E)];
    destruct (parse_empty_cases str) as [H | [[H Hn] | (v' & H & Hv & _)]];
    rewrite H in E0.
  - left. rewrite E. now injection E0 as <-.
  - right. left. rewrite E. injection E0 as <-. auto.
  - symmetry in E0. now apply set_changes_parseCache in E0.
  - discriminate.
  - now apply set_changes_parseCache in E0.
  - right. right. injection E0 as <- _. exists v'.
    split; [exact E|]. split; [exact Hv|].
    rewrite (LRUCache_set_cache str v' pc Hd), Map_get_last.
    destruct (kept_NoDup str pc Hd) as [_ Hn].
    now rewrite (Map_get_fresh str _ Hn), String.eqb_refl.
Qed.

Lemma parse_cache_effect_witness :
  reachable (snd (parse "2 days" parseCache))
  /\ (parse "soon" (snd (parse "2 days" parseCache))
      = (Throw (invalid_argument "soon"), snd (parse "2 days" parseCache))
      \/ (parse "soon" (snd (parse "2 days" parseCache))
          = (Return (VNumber NaN), snd (parse "2 days" parseCache))
          /\ RegExp_exec parseRegex "soon" = None)
      \/ (exists v,
            parse "soon" (snd (parse "2 days" parseCache))
            = (Return v, LRUCache_set "soon" v (snd (parse "2 days" parseCache)))
            /\ v <> VNumber NaN
            /\ Map_get "soon"
                 (cache (LRUCache_set "soon" v (snd (parse "2 days" parseCache))))
               = Some v)).
Proof.
  assert (H : reachable (snd (parse "2 days" parseCache)))
    by apply reach_parse, reach_init.
  split; [exact H|].
  exact (parse_cache_effect "soon" (snd (parse "2 days" parseCache)) H).
Defined.

(** X8. Every entry of the cache is an answer: after any calls of [parse],
    a key bound in the cache has between 1 and 100 characters, its value is
    not [NaN], and [parse] returns that value for that key in every state
    the cache can be in. *)
Theorem cache_entries_are_answers (pc : LRUCache) (key : string)
        (v : JSValue) :
  reachable pc -> Map_get key (cache pc) = Some v ->
  1 <= strlen key <= 100
  /\ v <> VNumber NaN
  /\ (forall pc', reachable pc' -> fst (parse key pc') = Return v).
Proof.
  intros Hr Hget. destruct (reachable_inv pc Hr) as [_ Hs].
  pose proof (Hs key v Hget) as H0.
  destruct (parse_empty_cases key) as [H | [[H _] | (v' & H & Hv & Hg)]];
    rewrite H in H0.
  - discriminate H0.
  - now apply set_changes_parseCache in H0.
  - injection H0 as <- _. split; [|split; [exact Hv|]].
    + apply orb_false_iff in Hg. destruct Hg as [Hg1 Hg2].
      apply Z.eqb_neq in Hg1. apply Z.ltb_ge in Hg2.
      unfold strlen in *. lia.
    + intros pc' Hr'. rewrite (parse_reachable key pc' Hr').
      unfold uncached. now rewrite H.
Qed.

Lemma cache_entries_are_answers_witness :
  reachable (snd (parse "90 mins" parseCache))
  /\ Map_get "90 mins" (cache (snd (parse "90 mins" parseCache)))
     = Some (VNumber (number_of_Z 5400000))
  /\ 1 <= strlen "90 mins" <= 100.
Proof.
  assert (H : reachable (snd (parse "90 mins" parseCache)))
    by apply reach_parse, reach_init.
  assert (G : Map_get "90 mins" (cache (snd (parse "90 mins" parseCache)))
              = Some (VNumber (number_of_Z 5400000)))
    by (vm_compute; reflexivity).
  split; [exact H|]. split; [exact G|].
  exact (proj1 (cache_entries_are_answers _ "90 mins" _ H G)).
Defined.

(* ================================================================= *)
(** ** The value of a duration *)

Lemma uncached_value (sign ip dot fp sp t : string) (x : number) :
  magnitude_parts sign ip dot fp -> string_forall isSpace sp = true ->
  valid_length ((sign ++ ip ++ dot ++ fp) ++ sp ++ t) ->
  (t = "" /\ x = number_of_Z 1)
  \/ (lang unit_pattern t
      /\ Object_get unitMultipliers (toLowerCase t) = Some (VNumber x)) ->
  uncached ((sign ++ ip ++ dot ++ fp) ++ sp ++ t)
  = Return (VNumber (number_mul
      (magnitude_value (match sign with "" => false | _ => true end)
                       ip dot fp) x)).
Proof.
  intros Hparts Hsp Hlen Ht.
  assert (Hv : lang value_pattern (sign ++ ip ++ dot ++ fp))
    by (apply value_pattern_parts; exists sign, ip, dot, fp; auto).
  assert (Hp : exists g, parses ((sign ++ ip ++ dot ++ fp) ++ sp ++ t) g).
  { destruct Ht as [[-> _] | [Ht _]].
    - exists [("value", sign ++ ip ++ dot ++ fp)].
      exists (sign ++ ip ++ dot ++ fp), sp, "". auto 6.
    - exists [("unit", t); ("value", sign ++ ip ++ dot ++ fp)].
      exists (sign ++ ip ++ dot ++ fp), sp, t. auto 6. }
  destruct Hp as [g Hp]. rewrite (uncached_parses _ g Hlen Hp).
  now rewrite (proj1 (parse_match_value sign ip dot fp sp t x parseCache
                        Hparts Hsp Ht)).
Qed.

(** X9. For an input made of a magnitude, spaces and a unit, or no unit,
    [parse] returns the magnitude times the multiplier of the unit, 1 when
    there is none. The magnitude counts as its digits read as an integer
    and scaled down by the number of digits after the point, rounded to
    the nearest number, negative after a minus. The result is never
    [NaN]. *)
Theorem parse_value (sign ip dot fp u : string) (k : nat) (x : number)
        (pc : LRUCache) :
  magnitude_parts sign ip dot fp ->
  valid_length ((sign ++ ip ++ dot ++ fp) ++ spaces k ++ u) ->
  reachable pc ->
  (u = "" /\ x = number_of_Z 1)
  \/ (In (toLowerCase u) (List.concat Unit)
      /\ Object_get unitMultipliers (toLowerCase u) = Some (VNumber x)) ->
  fst (parse ((sign ++ ip ++ dot ++ fp) ++ spaces k ++ u) pc)
  = Return (VNumber (number_mul
      (number_of_decimal (match sign with "" => false | _ => true end)
                         (Z_of_digits (ip ++ fp))
                         (match dot with "" => 0 | _ => - strlen fp end))
      x))
  /\ isNaN (number_mul
      (number_of_decimal (match sign with "" => false | _ => true end)
                         (Z_of_digits (ip ++ fp))
                         (match dot with "" => 0 | _ => - strlen fp end))
      x) = false.
Proof.
  intros Hparts Hlen Hr Hu.
  assert (Ht : (u = "" /\ x = number_of_Z 1)
               \/ (lang unit_pattern u
                   /\ Object_get unitMultipliers (toLowerCase u)
                      = Some (VNumber x))).
  { destruct Hu as [Hu | [Hu Hx]]; [now left | right].
    split; [now apply unit_pattern_lang | assumption]. }
  split.
  - rewrite (parse_reachable _ pc Hr).
    exact (uncached_value sign ip dot fp (spaces k) u x Hparts
             (spaces_isSpace k) Hlen Ht).
  - exact (proj2 (parse_match_value sign ip dot fp (spaces k) u x parseCache
                    Hparts (spaces_isSpace k) Ht)).
Qed.

Lemma parse_value_witness :
  magnitude_parts "-" "12" "." "5"
  /\ valid_length (("-" ++ "12" ++ "." ++ "5") ++ spaces 1 ++ "Hrs")
  /\ reachable parseCache
  /\ fst (parse (("-" ++ "12" ++ "." ++ "5") ++ spaces 1 ++ "Hrs") parseCache)
     = Return (VNumber (number_mul (number_of_decimal true 125 (-1)) h)).
Proof.
  assert (P : magnitude_parts "-" "12" "." "5").
  { unfold magnitude_parts. repeat split; auto; discriminate. }
  assert (L : valid_length (("-" ++ "12" ++ "." ++ "5") ++ spaces 1 ++ "Hrs"))
    by (vm_compute; split; discriminate).
  assert (U : In (toLowerCase "Hrs") (List.concat Unit)
              /\ Object_get unitMultipliers (toLowerCase "Hrs")
                 = Some (VNumber h)).
  { split; [vm_compute; tauto | reflexivity]. }
  split; [exact P|]. split; [exact L|]. split; [exact reach_init|].
  exact (proj1 (parse_value "-" "12" "." "5" "Hrs" 1 h parseCache
                  P L reach_init (or_intror U))).
Defined.

(** X10. For a string of valid length that is no property name of
    [Object.prototype], [parse] returns [NaN] exactly when the pattern
    does not match it; with a match it returns a number. *)
Theorem parse_NaN_iff (str : string) (pc : LRUCache) :
  reachable pc -> valid_length str -> inherited str = false ->
  (fst (parse str pc) = Return (VNumber NaN)
   <-> RegExp_exec parseRegex str = None)
  /\ (RegExp_exec parseRegex str <> None ->
      exists x, fst (parse str pc) = Return (VNumber x) /\ isNaN x = false).
Proof.
  intros Hr Hlen Hi.
  assert (Hm : forall g, RegExp_exec parseRegex str = Some g ->
                 exists x, fst (parse str pc) = Return (VNumber x)
                           /\ isNaN x = false).
  { intros g He. apply exec_parses in He.
    destruct (parse_match_not_nan str g He) as (x & Hx & Hnan).
    exists x. split; [|exact Hnan].
    rewrite (parse_reachable str pc Hr), (uncached_parses str g Hlen He).
    now rewrite Hx. }
  split; [split|].
  - intros Hn. destruct (RegExp_exec parseRegex str) as [g|] eqn:He;
      [|reflexivity].
    destruct (Hm g eq_refl) as (x & Hx & Hnan). rewrite Hx in Hn.
    injection Hn as ->. discriminate.
  - intros He. now rewrite (parse_unparseable str pc Hr Hlen He Hi).
  - intros He. destruct (RegExp_exec parseRegex str) as [g|]; [|congruence].
    now apply (Hm g).
Qed.

Lemma parse_NaN_iff_witness :
  reachable parseCache /\ valid_length "1 fortnight"
  /\ inherited "1 fortnight" = false
  /\ (fst (parse "1 fortnight" parseCache) = Return (VNumber NaN)
      <-> RegExp_exec parseRegex "1 fortnight" = None).
Proof.
  assert (L : valid_length "1 fortnight") by (vm_compute; split; discriminate).
  split; [exact reach_init|]. split; [exact L|]. split; [reflexivity|].
  exact (proj1 (parse_NaN_iff "1 fortnight" parseCache reach_init L eq_refl)).
Defined.

Lemma Milliseconds_multiplier (u : string) :
  In u Milliseconds ->
  Object_get unitMultipliers u = Some (VNumber (number_of_Z 1)).
Proof.
  intros H. vm_compute in H. members H ltac:(subst u; vm_compute; reflexivity).
Qed.

(** X11. A magnitude without unit counts as milliseconds: followed by
    spaces or not, it parses to the same number as the magnitude followed
    by any spelling of the millisecond unit. *)
Theorem parse_default_unit (v u : string) (k k' : nat) (pc pc' : LRUCache) :
  is_magnitude v = true -> In (toLowerCase u) Milliseconds ->
  valid_length (v ++ spaces k) -> valid_length (v ++ spaces k' ++ u) ->
  reachable pc -> reachable pc' ->
  fst (parse (v ++ spaces k) pc) = fst (parse (v ++ spaces k' ++ u) pc')
  /\ fst (parse (v ++ spaces k) pc)
     = Return (VNumber (number_mul (parseFloat v) (number_of_Z 1))).
Proof.
  intros Hv Hu Hlen Hlen' Hr Hr'.
  apply is_magnitude_lang, value_pattern_parts in Hv.
  destruct Hv as (sign & ip & dot & fp & -> & Hparts).
  rewrite (parseFloat_magnitude sign ip dot fp Hparts).
  rewrite (parse_reachable _ pc Hr), (parse_reachable _ pc' Hr').
  rewrite <- (append_nil_r (spaces k)) in Hlen |- *.
  rewrite (uncached_value sign ip dot fp (spaces k) "" (number_of_Z 1)
             Hparts (spaces_isSpace k) Hlen (or_introl (conj eq_refl eq_refl))).
  rewrite (uncached_value sign ip dot fp (spaces k') u (number_of_Z 1)
             Hparts (spaces_isSpace k') Hlen').
  - auto.
  - right. split; [|now apply Milliseconds_multiplier].
    apply unit_pattern_lang, in_concat. exists Milliseconds.
    split; [vm_compute; tauto | assumption].
Qed.

Lemma parse_default_unit_witness :
  is_magnitude "250" = true /\ In (toLowerCase "MSecs") Milliseconds
  /\ valid_length ("250" ++ spaces 0)
  /\ valid_length ("250" ++ spaces 1 ++ "MSecs")
  /\ fst (parse ("250" ++ spaces 0) parseCache)
     = fst (parse ("250" ++ spaces 1 ++ "MSecs") parseCache).
Proof.
  assert (M : is_magnitude "250" = true) by (vm_compute; reflexivity).
  assert (U : In (toLowerCase "MSecs") Milliseconds) by (vm_compute; tauto).
  assert (L : valid_length ("250" ++ spaces 0))
    by (vm_compute; split; discriminate).
  assert (L' : valid_length ("250" ++ spaces 1 ++ "MSecs"))
    by (vm_compute; split; discriminate).
  repeat (split; [assumption|]).
  exact (proj1 (parse_default_unit "250" "MSecs" 0 1 parseCache parseCache
                  M U L L' reach_init reach_init)).
Defined.

(** X12. A minus in front of a magnitude negates the result and nothing
    else: with the same digits, spaces and unit, [parse] returns the number
    of opposite sign. *)
Theorem parse_minus (ip dot fp u : string) (k : nat) (pc pc' : LRUCache) :
  magnitude_parts "" ip dot fp ->
  u = "" \/ In (toLowerCase u) (List.concat Unit) ->
  valid_length ((ip ++ dot ++ fp) ++ spaces k ++ u) ->
  valid_length (("-" ++ ip ++ dot ++ fp) ++ spaces k ++ u) ->
  reachable pc -> reachable pc' ->
  exists x,
    fst (parse ((ip ++ dot ++ fp) ++ spaces k ++ u) pc) = Return (VNumber x)
    /\ fst (parse (("-" ++ ip ++ dot ++ fp) ++ spaces k ++ u) pc')
       = Return (VNumber (number_neg x)).
Proof.
  intros Hparts Hu Hlen Hlen' Hr Hr'.
  assert (Hparts' : magnitude_parts "-" ip dot fp).
  { destruct Hparts as (_ & H). split; [now right | exact H]. }
  assert (Ht : exists x,
             (u = "" /\ x = number_of_Z 1)
             \/ (lang unit_pattern u
                 /\ Object_get unitMultipliers (toLowerCase u)
                    = Some (VNumber x))).
  { destruct Hu as [-> | Hu].
    - exists (number_of_Z 1). now left.
    - apply unit_pattern_lang in Hu. destruct (unit_known u Hu) as [x Hx].
      exists x. now right. }
  destruct Ht as [x Ht].
  exists (number_mul (magnitude_value false ip dot fp) x).
  rewrite (parse_reachable _ pc Hr), (parse_reachable _ pc' Hr').
  split.
  - exact (uncached_value "" ip dot fp (spaces k) u x Hparts
             (spaces_isSpace k) Hlen Ht).
  - rewrite (uncached_value "-" ip dot fp (spaces k) u x Hparts'
               (spaces_isSpace k) Hlen' Ht).
    unfold number_neg, magnitude_value.
    now rewrite number_of_decimal_opp, number_mul_opp.
Qed.

Lemma parse_minus_witness :
  magnitude_parts "" "" "." "5"
  /\ valid_length (("" ++ "." ++ "5") ++ spaces 0 ++ "h")
  /\ valid_length (("-" ++ "" ++ "." ++ "5") ++ spaces 0 ++ "h")
  /\ exists x,
      fst (parse (("" ++ "." ++ "5") ++ spaces 0 ++ "h") parseCache)
      = Return (VNumber x)
      /\ fst (parse (("-" ++ "" ++ "." ++ "5") ++ spaces 0 ++ "h") parseCache)
         = Return (VNumber (number_neg x)).
Proof.
  assert (P : magnitude_parts "" "" "." "5").
  { unfold magnitude_parts. repeat split; auto; discriminate. }
  assert (U : "h" = "" \/ In (toLowerCase "h") (List.concat Unit))
    by (right; vm_compute; tauto).
  assert (L : valid_length (("" ++ "." ++ "5") ++ spaces 0 ++ "h"))
    by (vm_compute; split; discriminate).
  assert (L' : valid_length (("-" ++ "" ++ "." ++ "5") ++ spaces 0 ++ "h"))
    by (vm_compute; split; discriminate).
  repeat (split; [assumption|]).
  exact (parse_minus "" "." "5" "h" 0 parseCache parseCache
           P U L L' reach_init reach_init).
Defined.

(* ================================================================= *)
(** ** [format] and the way back *)

Lemma number_eqb_eq (x x' : number) : number_eqb x x' = true -> x = x'.
Proof.
  destruct x as [b|b| |b mx ex], x' as [b'|b'| |b' mx' ex']; simpl;
    try discriminate; try reflexivity.
  - intros H. apply Bool.eqb_prop in H. now subst.
  - intros H. apply Bool.eqb_prop in H. now subst.
  - rewrite !andb_true_iff. intros [[Hb Hm] He].
    apply Bool.eqb_prop in Hb. apply Pos.eqb_eq in Hm. apply Z.eqb_eq in He.
    now subst.
Qed.

Lemma counts_In (kmax k : Z) : - kmax <= k <= kmax -> In k (counts kmax).
Proof.
  intros H. unfold counts. apply in_map_iff.
  exists (Z.to_nat (k + kmax)). split; [lia|]. apply in_seq. lia.
Qed.

Lemma whole_units_round_trip :
  forallb (fun verbose =>
    forallb (fun '(U, kmax) => forallb (round_trips verbose U) (counts kmax))
            whole_units) [false; true] = true.
Proof. vm_compute. reflexivity. Qed.

(** X13. [format] and [parse] undo each other on whole units. For every
    count [k] of a unit that [format] prints in that unit (up to 999
    milliseconds, 59 seconds, 59 minutes, 23 hours, 6 days, 4 weeks, 11
    months, 1000 years, and the same counts negated), in the short and in
    the long format, [ms] applied to the number [k * unit] gives a text
    that [ms] turns back into the same number, whatever the cache holds by
    then. *)
Theorem ms_round_trip (verbose : bool) (U kmax k : Z) (pc : LRUCache) :
  In (U, kmax) whole_units -> - kmax <= k <= kmax -> reachable pc ->
  exists text,
    fst (ms (ANumber (number_of_Z (k * U)))
            (Some {| long := Some verbose |}) pc)
    = Return (RString text)
    /\ fst (ms (AString text) None pc)
       = Return (RValue (VNumber (number_of_Z (k * U)))).
Proof.
  intros HU Hk Hr.
  assert (H : round_trips verbose U k = true).
  { pose proof whole_units_round_trip as H.
    rewrite forallb_forall in H.
    assert (Hv : In verbose [false; true]) by (destruct verbose; simpl; auto).
    specialize (H verbose Hv). rewrite forallb_forall in H.
    specialize (H (U, kmax) HU). cbv beta iota in H.
    rewrite forallb_forall in H. apply H. now apply counts_In. }
  unfold round_trips in H.
  destruct (format (number_of_Z (k * U)) (Some {| long := Some verbose |}))
    as [text|e] eqn:Hf; [|discriminate].
  exists text. unfold ms. rewrite Hf. split; [reflexivity|].
  pose proof (parse_reachable text pc Hr) as Hp.
  destruct (parse text pc) as [r pc']. simpl in Hp. simpl. rewrite Hp.
  destruct (uncached text) as [[x|b]|e]; try discriminate.
  apply number_eqb_eq in H. now subst.
Qed.

Lemma ms_round_trip_witness :
  In (3600000, 23) whole_units /\ - 23 <= 5 <= 23
  /\ reachable (snd (parse "5h" parseCache))
  /\ exists text,
      fst (ms (ANumber (number_of_Z (5 * 3600000)))
              (Some {| long := Some true |}) (snd (parse "5h" parseCache)))
      = Return (RString text)
      /\ fst (ms (AString text) None (snd (parse "5h" parseCache)))
         = Return (RValue (VNumber (number_of_Z (5 * 3600000)))).
Proof.
  assert (HU : In (3600000, 23) whole_units) by (simpl; tauto).
  assert (Hk : - 23 <= 5 <= 23) by lia.
  assert (Hr : reachable (snd (parse "5h" parseCache)))
    by apply reach_parse, reach_init.
  repeat (split; [assumption|]).
  exact (ms_round_trip true 3600000 23 5 _ HU Hk Hr).
Defined.


(* ================================================================= *)
(** ** Further edge behaviour of [parse] *)

(** X15. The cache of [parse] stays within its bounds: after any calls of
    [parse] it holds at most 100 entries, no key twice, and its capacity is
    still 100. *)
Theorem parse_cache_bounded (pc : LRUCache) :
  reachable pc ->
  (Map_size (cache pc) <= 100)%nat
  /\ NoDup (Map_keys (cache pc))
  /\ maxSize pc = 100%nat.
Proof.
  intros Hr. destruct (reachable_inv pc Hr) as [(Hmax & Hd & Hsz) _]. auto.
Qed.

Lemma parse_cache_bounded_witness :
  reachable (snd (parse "3 weeks" (snd (parse "10m" parseCache))))
  /\ (Map_size (cache (snd (parse "3 weeks" (snd (parse "10m" parseCache)))))
      <= 100)%nat.
Proof.
  assert (H : reachable (snd (parse "3 weeks" (snd (parse "10m" parseCache)))))
    by apply reach_parse, reach_parse, reach_init.
  split; [exact H|].
  exact (proj1 (parse_cache_bounded _ H)).
Defined.

Lemma no_match_head (a : ascii) (r : string) :
  leads a = false -> a <> "-"%char ->
  RegExp_exec parseRegex (String a r) = None.
Proof.
  intros Ha Hm.
  destruct (RegExp_exec parseRegex (String a r)) as [g|] eqn:He;
    [|reflexivity].
  apply exec_parses in He. destruct He as (v & sp & t & Hs & Hv & _).
  apply value_pattern_parts in Hv.
  destruct Hv as (sign & ip & dot & fp & -> & Hparts).
  pose proof Hparts as ([-> | ->] & Hrest).
  - destruct (unsigned_head ip dot fp Hparts) as (a' & r' & Hu & Ha').
    cbn [append] in Hs. rewrite Hu in Hs. cbn [append] in Hs.
    injection Hs as -> _. congruence.
  - cbn [append] in Hs. injection Hs as -> _. congruence.
Qed.

(** X16. Nothing is trimmed or skipped in front: a string of valid length
    that starts with anything but a minus, a digit or a point (a space, a
    plus sign, a letter) is no duration. Unless it is a property name of
    [Object.prototype], [parse] returns [NaN] for it and leaves the cache
    as it is. *)
Theorem parse_rejects_head (a : ascii) (r : string) (pc : LRUCache) :
  reachable pc -> valid_length (String a r) ->
  isDigit a = false -> a <> "."%char -> a <> "-"%char ->
  inherited (String a r) = false ->
  parse (String a r) pc = (Return (VNumber NaN), pc).
Proof.
  intros Hr Hlen Hd Hp Hm Hi.
  apply (parse_unparseable _ pc Hr Hlen); [|exact Hi].
  apply no_match_head; [|exact Hm]. unfold leads. rewrite Hd. simpl.
  apply Ascii.eqb_neq. exact Hp.
Qed.

Lemma parse_rejects_head_witness :
  reachable parseCache /\ valid_length (String " " "1s")
  /\ parse (String " " "1s") parseCache = (Return (VNumber NaN), parseCache).
Proof.
  assert (L : valid_length (String " " "1s"))
    by (vm_compute; split; discriminate).
  split; [exact reach_init|]. split; [exact L|].
  apply (parse_rejects_head " " "1s" parseCache reach_init L);
    [reflexivity | discriminate | discriminate | reflexivity].
Defined.
